(** * Personal-Trainer-Tracker: the calculator and the persistence accessors
  of [app.py], embedded and checked against their specification.

  The modules [Engine], [Calc], [Calendar], [Volume], [Photos], [Settings]
  and [Workouts] hold the embedding; the modules named [...Facts] hold
  what is proved of it.

  Numbers.  [weight] is a pandas float64 cell and [reps]/[sets] are int64
  cells.  Real-valued quantities are modelled by the canonical rationals
  [Qc]: arithmetic on them is exact, so binary64 rounding, overflow and
  underflow are outside this model.  Integer cells are [Z]; where pandas
  multiplies two int64 columns the 64-bit wrap-around is written out.  A
  missing cell (SQL NULL, [None], NaN: whatever [pd.isna] accepts) is
  [None]. *)

From Stdlib Require Import ZArith QArith Qcanon Qcabs Qround Lia.
From stdpp Require Import numbers strings list fin_maps gmap.

#[local] Open Scope Z_scope.

(** A literal such as [22.5] is written [n # d]. *)
Definition qc (n : Z) (d : positive) : Qc := Q2Qc (n # d).
Definition Z2Qc (n : Z) : Qc := Q2Qc (inject_Z n).

(** * The database engine, as far as the accessors use it *)
Module Engine.

(** The exceptions raised on the paths modelled here. *)
Inductive error : Type :=
  | KeyError (k : string)
  | TypeError
  | ValueError
  | OverflowError
  | OperationalError
  | IntegrityError.

Definition bind {A B : Type} (m : error + A) (k : A → error + B) : error + B :=
  match m with
  | inl e => inl e
  | inr a => k a
  end.

(** What the engine can do wrong on its own (a locked or unavailable
    database file): an error raised by [conn.execute], or by the COMMIT
    when the transaction ends. *)
Record faults : Type := {
  on_execute : option error;
  on_commit : option error
}.

Definition no_faults : faults := {| on_execute := None; on_commit := None |}.

(** [with engine.begin() as conn: body]: the body works on the
    connection's view of the table; leaving the block normally commits it,
    leaving it by an exception (the body's or the COMMIT's) rolls back and
    re-raises. *)
Definition begin {S : Type} (fl : faults) (body : S → error + S) (db : S) :
    (error + unit) * S :=
  match body db with
  | inl e => (inl e, db)
  | inr db' =>
      match on_commit fl with
      | Some e => (inl e, db)
      | None => (inr (), db')
      end
  end.

Definition fits_int64 (n : Z) : bool := (- 2 ^ 63 <=? n) && (n <? 2 ^ 63).

End Engine.

Notation "'let!' x ':=' m 'in' k" := (Engine.bind m (λ x, k))
  (at level 10, x name, m at level 100, k at level 200, only parsing).

(** * The derived-metric calculator *)
Module Calc.

(** What [e1rm] hands back: [np.nan], a number, or the division by zero
    of [36 / (37 - reps)] at [reps = 37] (Python scalars raise
    [ZeroDivisionError]; numpy scalars give an infinite quotient: in both
    cases not a finite number). *)
Inductive outcome : Type :=
  | NaN
  | Num (v : Qc)
  | DivByZero.

(** [a / b] on numbers; [None] stands for the division by zero. *)
Definition truediv (a b : Qc) : option Qc :=
  if decide (b = 0%Qc) then None else Some (a / b)%Qc.

(** [def e1rm(weight, reps)]:
    [if pd.isna(weight) or pd.isna(reps) or reps <= 0: return np.nan]
    [return weight * (36 / (37 - reps))]
    An argument that [pd.isna] accepts is [None] here; [or] evaluates
    [reps <= 0] only when both are present. *)
Definition e1rm (weight reps : option Qc) : outcome :=
  match weight, reps with
  | None, _ => NaN
  | Some _, None => NaN
  | Some w, Some r =>
      if decide (r ≤ 0)%Qc then NaN
      else match truediv (qc 36 1) (qc 37 1 - r)%Qc with
           | None => DivByZero
           | Some f => Num (w * f)%Qc
           end
  end.

(** The formula as the specification words it: [weight * 36 / (37 - reps)],
    read left to right. *)
Definition brzycki_spec (w r : Qc) : outcome :=
  match truediv (w * qc 36 1)%Qc (qc 37 1 - r)%Qc with
  | None => DivByZero
  | Some v => Num v
  end.

Definition finite (o : outcome) : Prop := ∃ v, o = Num v.

End Calc.

(** * Dates and weekly bins *)
Module Calendar.

(** A date is the number of days since 1970-01-01, which is what a pandas
    [Timestamp] at midnight holds (in nanoseconds). [ymd] is the proleptic
    Gregorian day count, used to write dates down. *)
Definition ymd (y m d : Z) : Z :=
  let y' := if m <=? 2 then y - 1 else y in
  let era := y' / 400 in
  let yoe := y' - era * 400 in
  let mp := if m <=? 2 then m + 9 else m - 3 in
  let doy := (153 * mp + 2) / 5 + d - 1 in
  let doe := yoe * 365 + yoe / 4 - yoe / 100 + doy in
  era * 146097 + doe - 719468.

(** [Timestamp.weekday()]: Monday is 0; day 0 was a Thursday. *)
Definition weekday (date : Z) : Z := (date + 3) mod 7.

(** The bin [pd.Grouper(freq="W-MON")] puts a date in. [W-MON] is the weekly
    frequency anchored on Monday, whose bins are closed and labelled on
    the right: a bin runs from a Tuesday to the following Monday and
    carries that Monday as its label. *)
Definition week_bin (date : Z) : Z := date + (- weekday date) mod 7.

(** The Monday that starts the ISO week of a date. *)
Definition iso_week_start (date : Z) : Z := date - weekday date.

End Calendar.

(** * Weekly training volume (the Dashboard's groupby) *)
Module Volume.
Import Calendar.

(** A complete row of [workouts] as the Log Workout form writes it
    ([int(sets)], [int(reps)], [float(weight)], [float(rir)]), with
    [session_date] already through [pd.to_datetime]. *)
Record entry : Type := {
  session_date : Z;
  day_name : string;
  exercise : string;
  sets : Z;
  reps : Z;
  weight : Qc;
  rir : Qc;
  notes : string
}.

(** The product of two int64 columns is an int64 column: numpy wraps. *)
Definition int64 (z : Z) : Z := (z + 2 ^ 63) mod 2 ^ 64 - 2 ^ 63.

(** [w["volume"] = w["sets"] * w["reps"] * w["weight"]] *)
Definition volume (e : entry) : Qc :=
  (Z2Qc (int64 (sets e * reps e)) * weight e)%Qc.

Section Groupby.
Context {K : Type} `{Countable K}.
Variable key : entry → K.

(** One row joins its group: the group's running sum grows by the row's
    volume, a new group starts from the row alone. *)
Definition add_row (acc : gmap K Qc) (e : entry) : gmap K Qc :=
  <[key e := (default 0%Qc (acc !! key e) + volume e)%Qc]> acc.

(** [w.groupby(key)["volume"].sum()], rows taken in table order. *)
Definition groupby_sum (w : list entry) : gmap K Qc :=
  foldl add_row ∅ w.

(** The sum of a group written out: the volumes of the rows with that key. *)
Definition group_total (k : K) (w : list entry) : Qc :=
  foldr Qcplus 0%Qc (volume <$> filter (λ e, key e = k) w).

End Groupby.

Definition group_key (e : entry) : Z * string :=
  (week_bin (session_date e), day_name e).

(** [w.groupby([pd.Grouper(key="session_date", freq="W-MON"),
    "day_name"])["volume"].sum()] *)
Definition weeklyVolume (w : list entry) : gmap (Z * string) Qc :=
  groupby_sum group_key w.

(** The grouping as the specification words it: (ISO week starting
    Monday, day_name). *)
Definition spec_key (e : entry) : Z * string :=
  (iso_week_start (session_date e), day_name e).

Definition weeklyVolume_spec (w : list entry) : gmap (Z * string) Qc :=
  groupby_sum spec_key w.

(** Sample rows: one session logged on Monday 2024-01-01 and its
    continuation logged on Tuesday 2024-01-02, both under "Monday - Push";
    a row whose [sets * reps] leaves the int64 range. *)
Definition monday_row : entry :=
  {| session_date := ymd 2024 1 1; day_name := "Monday - Push";
     exercise := "Incline DB Press"; sets := 3; reps := 8;
     weight := qc 20 1; rir := qc 3 2; notes := "" |}.

Definition tuesday_row : entry :=
  {| session_date := ymd 2024 1 2; day_name := "Monday - Push";
     exercise := "Flat DB Press"; sets := 3; reps := 8;
     weight := qc 45 2; rir := qc 3 2; notes := "" |}.

Definition huge_row : entry :=
  {| session_date := ymd 2024 1 2; day_name := "Monday - Push";
     exercise := "Flat DB Press"; sets := 2 ^ 32; reps := 2 ^ 32;
     weight := qc 1 1; rir := qc 0 1; notes := "" |}.

End Volume.

(** * Progress photos *)
Module Photos.

(** An image is modelled by its dimensions in pixels, both at least 1. *)
Record image : Type := { width : positive; height : positive }.

(** Pillow's [round_aspect(number, key)]:
    [max(min(math.floor(number), math.ceil(number), key=key), 1)];
    [min] keeps its first argument on a tie. *)
Definition round_aspect (number : Qc) (key : Z → Qc) : Z :=
  let lo := Qfloor number in
  let hi := Qceiling number in
  Z.max (if decide (key lo ≤ key hi)%Qc then lo else hi) 1.

(** Pillow's [preserve_aspect_ratio()] inside [Image.thumbnail(size)]
    (Pillow 7 and later): [None] when the image already fits, else the
    size to shrink to. [aspect] is width / height; the side that must give
    is computed from it and rounded by [round_aspect]. *)
Definition preserve_aspect_ratio (size : Z * Z) (im : image) : option (Z * Z) :=
  let '(x, y) := size in
  if decide (Zpos (width im) ≤ x ∧ Zpos (height im) ≤ y) then None
  else
    let aspect := (Z2Qc (Zpos (width im)) / Z2Qc (Zpos (height im)))%Qc in
    if decide (aspect ≤ Z2Qc x / Z2Qc y)%Qc
    then Some (round_aspect (Z2Qc y * aspect)%Qc
                 (λ n, Qcabs (aspect - Z2Qc n / Z2Qc y)%Qc), y)
    else Some (x, round_aspect (Z2Qc x / aspect)%Qc
                    (λ n, if decide (n = 0) then 0%Qc
                          else Qcabs (aspect - Z2Qc x / Z2Qc n)%Qc)).

(** [img.thumbnail(size)]: resize in place to the computed size, or leave
    the image alone. *)
Definition thumbnail (size : Z * Z) (im : image) : image :=
  match preserve_aspect_ratio size im with
  | None => im
  | Some (x, y) => {| width := Z.to_pos x; height := Z.to_pos y |}
  end.

(** A row of [photos]. [image_b64] is the base64 text of the JPEG of the
    image; the JPEG has the dimensions of the image it encodes, and the
    dimensions are all of the payload that is modelled. *)
Record photo : Type := {
  photo_date : string;
  caption : string;
  image_b64 : image
}.

(** [def write_photo(photo_date, caption, file)]: open, convert to RGB,
    [img.thumbnail((1280, 1280))], save as JPEG, append the row. [file]
    is an upload that Pillow can open; conversion to RGB and the JPEG
    encoding keep the dimensions. *)
Definition write_photo (photo_date caption : string) (file : image)
    (photos : list photo) : list photo :=
  photos ++ [ {| photo_date := photo_date; caption := caption;
                 image_b64 := thumbnail (1280, 1280) file |} ].

End Photos.

(** * Settings *)
Module Settings.
Import Engine.

(** The values a settings dict can hold. *)
Inductive pyval : Type :=
  | PyInt (n : Z)
  | PyFloat (q : Qc)
  | PyNaN
  | PyNone.

(** [int(v)]: floats truncate toward zero, NaN and [None] raise. *)
Definition py_int (v : pyval) : error + Z :=
  match v with
  | PyInt n => inr n
  | PyFloat q => inr (Z.quot (Qnum q) (Zpos (Qden q)))
  | PyNaN => inl ValueError
  | PyNone => inl TypeError
  end.

(** [d[k]] *)
Definition getitem (d : gmap string pyval) (k : string) : error + pyval :=
  match d !! k with
  | Some v => inr v
  | None => inl (KeyError k)
  end.

(** A row of the [settings] table: eight INTEGER columns. *)
Record row : Type := {
  id : Z;
  calories : Z;
  protein_g : Z;
  fat_g : Z;
  carb_g_rest : Z;
  carb_g_lift : Z;
  carb_g_football : Z;
  tdee : Z
}.

Definition DEFAULT_MACROS : gmap string pyval :=
  {[ "calories" := PyInt 2450; "protein_g" := PyInt 190;
     "fat_g" := PyInt 60; "carb_g_rest" := PyInt 220;
     "carb_g_lift" := PyInt 280; "carb_g_football" := PyInt 320 ]}.

Definition TDEE_EST : Z := 3000.

(** [s.iloc[0].to_dict()]: every column of the row, [id] included. *)
Definition to_dict (r : row) : gmap string pyval :=
  {[ "id" := PyInt (id r); "calories" := PyInt (calories r);
     "protein_g" := PyInt (protein_g r); "fat_g" := PyInt (fat_g r);
     "carb_g_rest" := PyInt (carb_g_rest r);
     "carb_g_lift" := PyInt (carb_g_lift r);
     "carb_g_football" := PyInt (carb_g_football r);
     "tdee" := PyInt (tdee r) ]}.

(** [def get_settings()]:
    [s = load_table("settings")]
    [return s.iloc[0].to_dict() if len(s) else DEFAULT_MACROS | {"tdee": TDEE_EST}] *)
Definition get_settings (settings : list row) : gmap string pyval :=
  match settings with
  | r :: _ => to_dict r
  | [] => {[ "tdee" := PyInt TDEE_EST ]} ∪ DEFAULT_MACROS
  end.

(** The seven bound parameters of the UPDATE. *)
Record params : Type := {
  cal : Z; p : Z; f : Z; cr : Z; cl : Z; cf : Z; tdee' : Z
}.

(** The keyword arguments of [dict(cal=int(d["calories"]), ...)], evaluated
    left to right; the first lookup or conversion that raises ends it. *)
Definition bound_params (d : gmap string pyval) : error + params :=
  let! cal := bind (getitem d "calories") py_int in
  let! p := bind (getitem d "protein_g") py_int in
  let! f := bind (getitem d "fat_g") py_int in
  let! cr := bind (getitem d "carb_g_rest") py_int in
  let! cl := bind (getitem d "carb_g_lift") py_int in
  let! cf := bind (getitem d "carb_g_football") py_int in
  let! t := bind (getitem d "tdee") py_int in
  inr {| cal := cal; p := p; f := f; cr := cr; cl := cl; cf := cf; tdee' := t |}.

(** [UPDATE settings SET calories=:cal, ..., tdee=:tdee WHERE id=1]: the
    driver refuses a parameter outside 64 bits, then the row with id 1,
    if there is one, gets all seven values. *)
Definition execute_update (fl : faults) (a : params) (settings : list row) :
    error + list row :=
  if negb (forallb fits_int64 [cal a; p a; f a; cr a; cl a; cf a; tdee' a])
  then inl OverflowError
  else match on_execute fl with
       | Some e => inl e
       | None =>
           inr ((λ r, if decide (id r = 1)
                      then {| id := id r; calories := cal a; protein_g := p a;
                              fat_g := f a; carb_g_rest := cr a;
                              carb_g_lift := cl a; carb_g_football := cf a;
                              tdee := tdee' a |}
                      else r) <$> settings)
       end.

(** [def update_settings(d)] *)
Definition update_settings (fl : faults) (d : gmap string pyval)
    (settings : list row) : (error + unit) * list row :=
  begin fl (λ conn, let! a := bound_params d in execute_update fl a conn)
    settings.

(** The seeded row, and a dict as the Settings tab builds it. *)
Definition seeded : row :=
  {| id := 1; calories := 2450; protein_g := 190; fat_g := 60;
     carb_g_rest := 220; carb_g_lift := 280; carb_g_football := 320;
     tdee := 3000 |}.

End Settings.

(** * The workouts table, its CSV export and import *)
Module Workouts.
Import Engine.

(** SQLite stores what it is given: a cell of any column is NULL, an
    integer, a real or a text. pandas frames hold the same cells. *)
Inductive cell : Type :=
  | Null
  | Int (n : Z)
  | Real (q : Qc)
  | Text (s : string).

(** A row of [workouts]; [id] is the INTEGER PRIMARY KEY AUTOINCREMENT. *)
Record row : Type := {
  id : Z;
  session_date : cell;
  day_name : cell;
  exercise : cell;
  sets : cell;
  reps : cell;
  weight : cell;
  rir : cell;
  notes : cell
}.

(** A DataFrame without its index: column names and records. *)
Record frame : Type := {
  columns : list string;
  data : list (list cell)
}.

Definition table_columns : list string :=
  ["id"; "session_date"; "day_name"; "exercise"; "sets"; "reps"; "weight";
   "rir"; "notes"].

Definition cells (r : row) : list cell :=
  [Int (id r); session_date r; day_name r; exercise r; sets r; reps r;
   weight r; rir r; notes r].

(** [load_table("workouts")]: [SELECT * FROM workouts], every column. *)
Definition load_table (workouts : list row) : frame :=
  {| columns := table_columns; data := cells <$> workouts |}.

(** The cell of a record under a column name. *)
Definition field (cols : list string) (record : list cell) (c : string) :
    option cell :=
  (list_to_map (zip cols record) : gmap string cell) !! c.

(** A whole column, when the frame has it in every record. *)
Definition column (df : frame) (c : string) : option (list cell) :=
  mapM (λ record, field (columns df) record c) (data df).

Definition is_int (c : cell) : Prop :=
  match c with Int _ => True | _ => False end.

(** [df.to_csv(index=False)] and [pd.read_csv(f)] are pandas' own; they
    are taken as given functions between frames and files. *)
Record codec : Type := {
  csv : Type;
  to_csv : frame → csv;
  read_csv : csv → frame
}.

(** What is relied on about them: the header row is the column names, and
    a column of integers without a missing value is written in decimal
    and read back as the same integers. Nothing is assumed of texts,
    reals or columns with missing values. *)
Definition header_kept (cd : codec) : Prop :=
  ∀ df, columns (read_csv cd (to_csv cd df)) = columns df.

Definition integers_kept (cd : codec) : Prop :=
  ∀ df c col, column df c = Some col → Forall is_int col →
    column (read_csv cd (to_csv cd df)) c = Some col.

(** A codec that loses nothing at all. *)
Definition lossless : codec :=
  {| csv := frame; to_csv := λ df, df; read_csv := λ f, f |}.

Section CsvImport.
Variable cd : codec.
(** SQLite's conversions on storage, taken as given: a text offered as the
    INTEGER PRIMARY KEY ([None]: datatype mismatch), and the column
    affinity applied to a cell of another column. *)
Variable rowid_of_text : string → option Z.
Variable affinity : string → cell → cell.

(** The rowid AUTOINCREMENT picks: one more than the largest ever used
    (rows are never deleted, so the largest present), at least 1. *)
Definition next_rowid (workouts : list row) : Z :=
  1 + foldr Z.max 0 (id <$> workouts).

(** The rowid of a record to insert: the [id] cell when the frame has one,
    a fresh one otherwise. *)
Definition rowid (workouts : list row) (c : option cell) : error + Z :=
  match c with
  | None | Some Null =>
      if next_rowid workouts <? 2 ^ 63 then inr (next_rowid workouts)
      else inl OperationalError
  | Some (Int n) => if fits_int64 n then inr n else inl OverflowError
  | Some (Real q) =>
      if decide (Qden q = 1%positive) then inr (Qnum q) else inl IntegrityError
  | Some (Text s) =>
      match rowid_of_text s with
      | Some n => inr n
      | None => inl IntegrityError
      end
  end.

(** The row an INSERT stores under rowid [n]: the cells as they come, a
    column the frame lacks being NULL. *)
Definition row_of_record (cols : list string) (n : Z) (record : list cell) :
    row :=
  let stored c := affinity c (default Null (field cols record c)) in
  {| id := n; session_date := stored "session_date";
     day_name := stored "day_name"; exercise := stored "exercise";
     sets := stored "sets"; reps := stored "reps";
     weight := stored "weight"; rir := stored "rir";
     notes := stored "notes" |}.

(** One INSERT: the primary key must be new. *)
Definition insert_record (cols : list string) (workouts : list row)
    (record : list cell) : error + list row :=
  let! n := rowid workouts (field cols record "id") in
  if decide (n ∈ id <$> workouts) then inl IntegrityError
  else inr (workouts ++ [row_of_record cols n record]).

Fixpoint insert_all (cols : list string) (workouts : list row)
    (records : list (list cell)) : error + list row :=
  match records with
  | [] => inr workouts
  | record :: rest =>
      let! workouts' := insert_record cols workouts record in
      insert_all cols workouts' rest
  end.

(** [df.to_sql("workouts", engine, if_exists="append", index=False)]: the
    records are inserted in one transaction; an empty frame inserts
    nothing; a column the table lacks makes the INSERT fail. *)
Definition to_sql_append (fl : faults) (df : frame) (workouts : list row) :
    (error + unit) * list row :=
  match data df with
  | [] => (inr (), workouts)
  | _ =>
      begin fl (λ conn,
        match on_execute fl with
        | Some e => inl e
        | None =>
            if decide (columns df ⊆ table_columns)
            then insert_all (columns df) conn (data df)
            else inl OperationalError
        end) workouts
  end.

(** [dl(w, "workouts")]: the bytes offered for download. *)
Definition dl (df : frame) : csv cd := to_csv cd df.

(** Import Workouts CSV: [df = pd.read_csv(f)], then [df.to_sql(...)]. *)
Definition import_csv (fl : faults) (f : csv cd) (workouts : list row) :
    (error + unit) * list row :=
  to_sql_append fl (read_csv cd f) workouts.

(** The frame the import reads from the export of a table. *)
Definition reread (workouts : list row) : frame :=
  read_csv cd (dl (load_table workouts)).

(** Export the table and import the file into a table [target]. *)
Definition export_import (fl : faults) (workouts target : list row) :
    (error + unit) * list row :=
  import_csv fl (dl (load_table workouts)) target.

End CsvImport.

(** What SQLite guarantees of a stored table: the rowids are distinct
    64-bit integers. *)
Definition valid_table (workouts : list row) : Prop :=
  NoDup (id <$> workouts) ∧ Forall (λ r, fits_int64 (id r) = true) workouts.

(** The round trip as the specification words it: importing the export
    back appends one row per exported record, with the exported fields. *)
Definition round_trip_preserves (cd : codec) (rowid_of_text : string → option Z)
    (affinity : string → cell → cell) (workouts : list row) : Prop :=
  ∃ appended,
    export_import cd rowid_of_text affinity no_faults workouts workouts
      = (inr (), workouts ++ appended) ∧
    length appended = length workouts ∧
    (λ r, tail (cells r)) <$> appended = (λ r, tail (cells r)) <$> workouts.

Definition logged : row :=
  {| id := 1; session_date := Text "2024-01-01";
     day_name := Text "Monday - Push"; exercise := Text "Incline DB Press";
     sets := Int 3; reps := Int 8; weight := Real (qc 20 1);
     rir := Real (qc 3 2); notes := Text "PR" |}.

End Workouts.

(** * The Log Workout form and the Dashboard's e1RM trend *)
Module Dashboard.
Import Calc Volume.

(** The bounds the Log Workout widgets enforce on what they return:
    [st.number_input("Sets completed", 1, 10, ...)], ["Reps per set (avg)",
    1, 30], ["Weight (kg)", 0.0, 500.0], ["RIR", 0.0, 4.0]. *)
Definition form_bounds (e : entry) : Prop :=
  1 ≤ sets e ≤ 10 ∧ 1 ≤ reps e ≤ 30 ∧
  (0 ≤ weight e)%Qc ∧ (weight e ≤ qc 500 1)%Qc ∧
  (0 ≤ rir e)%Qc ∧ (rir e ≤ qc 4 1)%Qc.

Definition key_lifts : list string :=
  ["Incline DB Press"; "Leg Press (full depth)"; "Hip Thrust (Smith)";
   "Chest-Supported DB Row"].

(** [ew = w[w["exercise"].isin(key_lifts)].copy()]
    [ew["e1rm"] = ew.apply(lambda r: e1rm(r["weight"], r["reps"]), axis=1)]:
    the rows of the key lifts, each with its estimate. *)
Definition e1rm_trend (w : list entry) : list (entry * outcome) :=
  (λ e, (e, e1rm (Some (weight e)) (Some (Z2Qc (reps e)))))
    <$> filter (λ e, exercise e ∈ key_lifts) w.

(** The height of all the bars of the volume chart together. *)
Definition chart_total (vol : gmap (Z * string) Qc) : Qc :=
  map_fold (λ _ v acc, (v + acc)%Qc) 0%Qc vol.

End Dashboard.

(** * Start-up seeding and the Settings tab *)
Module SettingsTab.
Import Engine Settings.

(** [cur = conn.execute("SELECT COUNT( * ) FROM settings").fetchone()[0]]
    [if cur == 0: INSERT INTO settings (id, ...) VALUES (1, ...)] with the
    values of [DEFAULT_MACROS] and [TDEE_EST]; run each time the script
    starts. *)
Definition seed_settings (settings : list row) : list row :=
  if decide (length settings = 0%nat) then settings ++ [seeded]
  else settings.

(** The Settings tab: [s = get_settings()], then the seven entries of [s]
    are replaced by what the number inputs return. *)
Definition tab_dict (a : params) (settings : list row) : gmap string pyval :=
  <["tdee" := PyInt (tdee' a)]>
    (<["carb_g_football" := PyInt (cf a)]>
      (<["carb_g_lift" := PyInt (cl a)]>
        (<["carb_g_rest" := PyInt (cr a)]>
          (<["fat_g" := PyInt (f a)]>
            (<["protein_g" := PyInt (p a)]>
              (<["calories" := PyInt (cal a)]> (get_settings settings))))))).

(** [if st.button("Save Settings"): update_settings(s)] *)
Definition save_settings (fl : faults) (a : params) (settings : list row) :
    (error + unit) * list row :=
  update_settings fl (tab_dict a settings) settings.

(** The row with id 1 after an UPDATE with parameters [a]. *)
Definition updated (a : params) (r : row) : row :=
  {| id := id r; calories := cal a; protein_g := p a; fat_g := f a;
     carb_g_rest := cr a; carb_g_lift := cl a; carb_g_football := cf a;
     tdee := tdee' a |}.

(** What the UPDATE does to one row of the table. *)
Definition write (a : params) (r : row) : row :=
  if decide (id r = 1) then updated a r else r.

Definition params_fit (a : params) : Prop :=
  forallb fits_int64 [cal a; p a; f a; cr a; cl a; cf a; tdee' a] = true.

Definition params_of (r : row) : params :=
  {| cal := calories r; p := protein_g r; f := fat_g r; cr := carb_g_rest r;
     cl := carb_g_lift r; cf := carb_g_football r; tdee' := tdee r |}.

Definition cut : params :=
  {| cal := 2300; p := 200; f := 55; cr := 200; cl := 260; cf := 300;
     tdee' := 2900 |}.

End SettingsTab.

(** * Logging a workout *)
Module Logging.
Import Engine Workouts.

(** The dict the Log Workout tab builds on "Add Entry":
    [{"session_date": str(today), "day_name": day, "exercise": ex,
      "sets": int(sets), "reps": int(reps), "weight": float(weight),
      "rir": float(rir), "notes": notes}]. *)
Record entry_dict : Type := {
  today : string;
  day : string;
  ex : string;
  sets_done : Z;
  reps_done : Z;
  weight_kg : Qc;
  rir_left : Qc;
  note : string
}.

Definition entry_columns : list string :=
  ["session_date"; "day_name"; "exercise"; "sets"; "reps"; "weight"; "rir";
   "notes"].

Definition entry_cells (e : entry_dict) : list cell :=
  [Text (today e); Text (day e); Text (ex e); Int (sets_done e);
   Int (reps_done e); Real (weight_kg e); Real (rir_left e); Text (note e)].

(** [pd.DataFrame(rows)]: one record per dict, the columns being the
    dicts' keys; no dict, no column. *)
Definition DataFrame (rows : list entry_dict) : frame :=
  {| columns := match rows with [] => [] | _ => entry_columns end;
     data := entry_cells <$> rows |}.

(** [def write_workout(rows)]:
    [df = pd.DataFrame(rows)]
    [df.to_sql("workouts", engine, if_exists="append", index=False)] *)
Definition write_workout (rowid_of_text : string → option Z)
    (affinity : string → cell → cell) (fl : faults) (rows : list entry_dict)
    (workouts : list row) : (error + unit) * list row :=
  to_sql_append rowid_of_text affinity fl (DataFrame rows) workouts.

(** The row stored for a logged dict under rowid [n]: each value under
    the column of its key, through the column's affinity. *)
Definition logged_row (affinity : string → cell → cell) (n : Z)
    (e : entry_dict) : row :=
  {| id := n;
     session_date := affinity "session_date" (Text (today e));
     day_name := affinity "day_name" (Text (day e));
     exercise := affinity "exercise" (Text (ex e));
     sets := affinity "sets" (Int (sets_done e));
     reps := affinity "reps" (Int (reps_done e));
     weight := affinity "weight" (Real (weight_kg e));
     rir := affinity "rir" (Real (rir_left e));
     notes := affinity "notes" (Text (note e)) |}.

Definition press : entry_dict :=
  {| today := "2024-01-01"; day := "Monday - Push";
     ex := "Incline DB Press"; sets_done := 4; reps_done := 8;
     weight_kg := qc 25 1; rir_left := qc 3 2; note := "" |}.

End Logging.

(** * The passcode gate *)
Module Auth.

(** How one execution of the script ends at the gate: the pages below it
    are rendered, the script stops at [st.stop()], or it asks to be run
    again ([st.experimental_rerun()]). *)
Inductive gate : Type :=
  | Rendered
  | Stopped
  | Rerun.

(** What the visitor did before an execution: the text in the passcode
    box and whether "Unlock" was pressed. *)
Record action : Type := { code : string; unlock : bool }.

(** One execution, from [if PASSCODE:] to [st.stop()]. The session state
    is the value under ["authed"], if any. *)
Definition script (PASSCODE : string) (session : option bool) (a : action) :
    option bool * gate :=
  if decide (PASSCODE = "") then (session, Rendered)
  else
    let authed := default false session in
    if authed then (Some authed, Rendered)
    else if unlock a
         then if decide (code a = PASSCODE) then (Some true, Rerun)
              else (Some authed, Stopped)
         else (Some authed, Stopped).

(** One interaction: the execution it triggers and, when that one asks
    for it, the execution that follows at once, in which the button is
    no longer pressed. *)
Definition interaction (PASSCODE : string) (session : option bool)
    (a : action) : option bool * gate :=
  match script PASSCODE session a with
  | (session', Rerun) =>
      script PASSCODE session' {| code := code a; unlock := false |}
  | result => result
  end.

(** A visit: the interactions one after the other, with what each one
    ended in. *)
Fixpoint visit (PASSCODE : string) (session : option bool)
    (actions : list action) : list gate :=
  match actions with
  | [] => []
  | a :: rest =>
      let '(session', g) := interaction PASSCODE session a in
      g :: visit PASSCODE session' rest
  end.

End Auth.

(** * Verification *)

Module CalcFacts.
Import Calc.

Lemma truediv_some a b : b ≠ 0%Qc → truediv a b = Some (a / b)%Qc.
Proof. intros Hb. unfold truediv. by destruct (decide (b = 0%Qc)). Qed.

Lemma truediv_none a b : truediv a b = None ↔ b = 0%Qc.
Proof. unfold truediv. destruct (decide (b = 0%Qc)); naive_solver. Qed.

Lemma denominator_zero (r : Qc) : (qc 37 1 - r = 0)%Qc ↔ r = qc 37 1.
Proof.
  split; intros Hr.
  - rewrite <-(Qcplus_0_l r), <-Hr. ring.
  - subst r. ring.
Qed.

(** Away from the missing-value and sign guards, the code is its formula. *)
Lemma e1rm_unguarded (w r : Qc) :
  (0 < r)%Qc →
  e1rm (Some w) (Some r) =
    match truediv (qc 36 1) (qc 37 1 - r)%Qc with
    | None => DivByZero
    | Some f => Num (w * f)%Qc
    end.
Proof.
  intros Hr. unfold e1rm.
  destruct (decide (r ≤ 0)%Qc) as [Hle|]; [|done].
  by apply Qcle_not_lt in Hle.
Qed.

Lemma e1rm_guarded (w r : Qc) : (r ≤ 0)%Qc → e1rm (Some w) (Some r) = NaN.
Proof. intros Hr. unfold e1rm. by destruct (decide (r ≤ 0)%Qc). Qed.

Lemma e1rm_value (w r : Qc) :
  (0 < r)%Qc → r ≠ qc 37 1 →
  e1rm (Some w) (Some r) = Num (w * (qc 36 1 / (qc 37 1 - r)))%Qc.
Proof.
  intros Hr H37. rewrite e1rm_unguarded by done.
  rewrite truediv_some; [done|]. by rewrite denominator_zero.
Qed.

Lemma e1rm_singular (w r : Qc) :
  e1rm (Some w) (Some r) = DivByZero ↔ r = qc 37 1.
Proof.
  destruct (Qclt_le_dec 0 r) as [Hr|Hr].
  - rewrite e1rm_unguarded by done.
    destruct (truediv _ _) eqn:E.
    + split; [done|]. intros ->.
      assert (truediv (qc 36 1) (qc 37 1 - qc 37 1)%Qc = None) as E'
        by (by apply truediv_none, denominator_zero).
      congruence.
    + apply truediv_none, denominator_zero in E. naive_solver.
  - rewrite e1rm_guarded by done. split; [done|]. intros ->.
    by apply Qcle_not_lt in Hr.
Qed.

Lemma Qcopp_pos (x : Qc) : (x < 0)%Qc ↔ (0 < - x)%Qc.
Proof. by rewrite (Qclt_minus_iff x 0), Qcplus_0_l. Qed.

Lemma Qcinv_neg (x : Qc) : (x < 0)%Qc → (/ x < 0)%Qc.
Proof.
  intros Hx.
  assert (x ≠ 0%Qc) as Hne by (intros ->; by apply Qclt_not_eq in Hx).
  apply Qcopp_pos in Hx. apply Qcinv_pos in Hx.
  apply Qcopp_pos. replace (- / x)%Qc with (/ - x)%Qc; [done|].
  field. split; [done|]. intros H0. apply Hne.
  rewrite <-(Qcopp_involutive x), H0. by apply Qc_is_canon.
Qed.

Lemma Qcmult_pos_neg (x y : Qc) : (0 < x)%Qc → (y < 0)%Qc → (x * y < 0)%Qc.
Proof.
  intros Hx Hy. apply Qcopp_pos in Hy.
  apply Qcopp_pos. replace (- (x * y))%Qc with (x * - y)%Qc by ring.
  by apply Qcmult_pos_pos.
Qed.

(** C1. [e1rm] answers NaN when the weight is missing, when the reps are
    missing, or when reps <= 0; in every other case it is the formula
    [weight * 36 / (37 - reps)]: the same number wherever that quotient
    exists, and the same division by zero at reps = 37. *)
Theorem e1rm_cases (weight reps : option Qc) :
  (weight = None → e1rm weight reps = NaN) ∧
  (reps = None → e1rm weight reps = NaN) ∧
  (∀ r, reps = Some r → (r ≤ 0)%Qc → e1rm weight reps = NaN) ∧
  (∀ w r, weight = Some w → reps = Some r → (0 < r)%Qc →
     e1rm weight reps = brzycki_spec w r ∧
     (r ≠ qc 37 1 →
      e1rm weight reps = Num (w * qc 36 1 / (qc 37 1 - r))%Qc)).
Proof.
  repeat split.
  - by intros ->.
  - intros ->. by destruct weight.
  - intros r -> Hr. destruct weight as [w|]; [|done]. by apply e1rm_guarded.
  - subst. rewrite e1rm_unguarded by done. unfold brzycki_spec, truediv.
    destruct (decide (qc 37 1 - r = 0)%Qc) as [|Hne]; [done|].
    f_equal. by field.
  - intros H37. subst. rewrite e1rm_value by done. f_equal.
    field. by rewrite denominator_zero.
Qed.

Lemma e1rm_cases_witness :
  e1rm (Some (qc 100 1)) (Some (qc 8 1)) =
    Num (qc 100 1 * qc 36 1 / (qc 37 1 - qc 8 1))%Qc.
Proof.
  destruct (e1rm_cases (Some (qc 100 1)) (Some (qc 8 1))) as (_ & _ & _ & Hf).
  destruct (Hf (qc 100 1) (qc 8 1)) as [_ Hv]; [reflexivity..|].
  apply Hv. intros Heq. by apply (f_equal this) in Heq.
Defined.





End CalcFacts.

Module VolumeFacts.
Import Calendar Volume.

Lemma weekday_range (date : Z) : 0 ≤ weekday date < 7.
Proof. unfold weekday. apply Z.mod_pos_bound. lia. Qed.

(** A bin is labelled by a Monday and holds the six days before it and
    that Monday. *)
Lemma week_bin_span (date : Z) :
  weekday (week_bin date) = 0 ∧ week_bin date - 6 ≤ date ≤ week_bin date.
Proof.
  unfold week_bin, weekday.
  set (a := (date + 3) mod 7).
  pose proof (Z.mod_pos_bound (date + 3) 7 ltac:(lia)) as Ha.
  pose proof (Z.mod_pos_bound (- a) 7 ltac:(lia)) as Hb.
  pose proof (Z_div_mod_eq_full (date + 3) 7) as Hda.
  pose proof (Z_div_mod_eq_full (- a) 7) as Hdb.
  fold a in Ha, Hda. split; [|lia].
  replace (date + (- a) mod 7 + 3)
    with (((date + 3) / 7 - (- a) / 7) * 7) by lia.
  apply Z_mod_mult.
Qed.

Lemma int64_exact (z : Z) : - 2 ^ 63 ≤ z < 2 ^ 63 → int64 z = z.
Proof. intros Hz. unfold int64. rewrite Z.mod_small; lia. Qed.

Lemma Z2Qc_mult (a b : Z) : Z2Qc (a * b) = (Z2Qc a * Z2Qc b)%Qc.
Proof.
  apply Qc_is_canon. unfold Z2Qc, Qcmult, Q2Qc. cbn [this].
  rewrite !Qred_correct. by rewrite inject_Z_mult.
Qed.

Lemma volume_exact (e : entry) :
  - 2 ^ 63 ≤ sets e * reps e < 2 ^ 63 →
  volume e = (Z2Qc (sets e) * Z2Qc (reps e) * weight e)%Qc.
Proof. intros He. unfold volume. by rewrite int64_exact, Z2Qc_mult. Qed.

Lemma total_permutation (l l' : list Qc) :
  l ≡ₚ l' → foldr Qcplus 0%Qc l = foldr Qcplus 0%Qc l'.
Proof.
  induction 1 as [|x l l' _ IH|x y l|l l' l'' _ IH1 _ IH2]; simpl.
  - done.
  - by rewrite IH.
  - ring.
  - by rewrite IH1.
Qed.

Section GroupbyFacts.
Context {K : Type} `{Countable K}.
Variable key : entry → K.

(** The fold row by row against the sum of the group written out. *)
Lemma foldl_add_row_lookup (w : list entry) (acc : gmap K Qc) (k : K) :
  foldl (add_row key) acc w !! k =
    if decide (filter (λ e, key e = k) w = []) then acc !! k
    else Some (default 0%Qc (acc !! k) + group_total key k w)%Qc.
Proof.
  revert acc. induction w as [|e w IH]; intros acc; [done|].
  simpl. rewrite IH. unfold group_total.
  destruct (decide (key e = k)) as [Hk|Hk].
  - rewrite filter_cons_True by done. simpl.
    unfold add_row. rewrite Hk, lookup_insert_eq.
    destruct (decide (filter _ w = [])) as [->|_]; simpl;
      apply (f_equal Some).
    + by rewrite Qcplus_0_r.
    + symmetry. apply Qcplus_assoc.
  - rewrite filter_cons_False by done.
    unfold add_row. by rewrite lookup_insert_ne.
Qed.

Lemma groupby_sum_lookup (w : list entry) (k : K) :
  groupby_sum key w !! k =
    if decide (filter (λ e, key e = k) w = []) then None
    else Some (group_total key k w).
Proof.
  unfold groupby_sum. rewrite foldl_add_row_lookup, lookup_empty. simpl.
  case_decide; [done|]. f_equal. ring.
Qed.

Lemma groupby_sum_permutation (w w' : list entry) :
  w ≡ₚ w' → groupby_sum key w = groupby_sum key w'.
Proof.
  intros Hp. apply map_eq. intros k. rewrite !groupby_sum_lookup.
  assert (filter (λ e, key e = k) w ≡ₚ filter (λ e, key e = k) w') as Hf
    by (by rewrite Hp).
  destruct (decide (filter _ w = [])) as [E|E];
    destruct (decide (filter _ w' = [])) as [E'|E']; try done.
  - rewrite E in Hf. by apply Permutation_nil in Hf.
  - rewrite E' in Hf. symmetry in Hf. by apply Permutation_nil in Hf.
  - f_equal. unfold group_total. apply total_permutation. by rewrite Hf.
Qed.

End GroupbyFacts.

(** C3, as the code has it. Each entry's volume is sets x reps x weight,
    the integer product sets x reps being an int64 (exact whenever it fits
    in 64 bits); [weeklyVolume] returns, for each pair (weekly bin,
    day_name) that occurs, the sum of the volumes of the entries with that
    pair and nothing for other pairs; the weekly bin of a date is the
    seven days that end on a Monday (Tuesday to Monday), labelled by that
    Monday. *)
Theorem weeklyVolume_groups :
  (∀ e : entry, - 2 ^ 63 ≤ sets e * reps e < 2 ^ 63 →
     volume e = (Z2Qc (sets e) * Z2Qc (reps e) * weight e)%Qc) ∧
  (∀ (w : list entry) (k : Z * string),
     weeklyVolume w !! k =
       let group := filter (λ e, group_key e = k) w in
       if decide (group = []) then None
       else Some (foldr Qcplus 0%Qc (volume <$> group))) ∧
  (∀ e : entry,
     (group_key e).2 = day_name e ∧
     weekday (group_key e).1 = 0 ∧
     (group_key e).1 - 6 ≤ session_date e ≤ (group_key e).1).
Proof.
  split; [apply volume_exact|]. split.
  - intros w k. apply groupby_sum_lookup.
  - intros e. split; [done|]. apply week_bin_span.
Qed.

Lemma weeklyVolume_groups_witness :
  volume monday_row = (Z2Qc 3 * Z2Qc 8 * qc 20 1)%Qc.
Proof.
  apply (proj1 weeklyVolume_groups monday_row). simpl. lia.
Defined.

(** C3 as stated fails. Two entries of the same ISO week (Monday
    2024-01-01 and Tuesday 2024-01-02) with the same day_name are one
    group with sum 480 + 540 under the stated grouping, and two groups, of
    480 and of 540, in the code. And an entry with sets = reps = 2^32 has
    volume 0, not sets x reps x weight. *)
Lemma weekly_bins_are_not_iso_weeks :
  spec_key monday_row = spec_key tuesday_row ∧
  weeklyVolume_spec [monday_row; tuesday_row]
    = {[ spec_key monday_row := qc 1020 1 ]} ∧
  weeklyVolume [monday_row; tuesday_row]
    = {[ (ymd 2024 1 1, "Monday - Push"%string) := qc 480 1;
         (ymd 2024 1 8, "Monday - Push"%string) := qc 540 1 ]} ∧
  volume huge_row = 0%Qc ∧
  (Z2Qc (sets huge_row) * Z2Qc (reps huge_row) * weight huge_row)%Qc
    = qc (2 ^ 64) 1.
Proof.
  split; [reflexivity|]. split; [|split; [|split]].
  - apply map_eq. intros k. unfold weeklyVolume_spec.
    rewrite groupby_sum_lookup.
    destruct (decide (k = spec_key monday_row)) as [->|Hk].
    + rewrite lookup_singleton_eq. simpl. f_equal; by apply Qc_is_canon.
    + rewrite lookup_singleton_ne by done.
      rewrite decide_True; [done|].
      rewrite !filter_cons_False; [done|..]; intros Heq; by apply Hk.
  - apply map_eq. intros k. unfold weeklyVolume.
    rewrite groupby_sum_lookup.
    destruct (decide (k = group_key monday_row)) as [->|Hk1].
    { rewrite lookup_insert_eq. simpl. f_equal; by apply Qc_is_canon. }
    rewrite lookup_insert_ne by done.
    destruct (decide (k = group_key tuesday_row)) as [->|Hk2].
    { rewrite lookup_singleton_eq. simpl. f_equal; by apply Qc_is_canon. }
    rewrite lookup_singleton_ne by done.
    rewrite decide_True; [done|].
    rewrite !filter_cons_False; [done|..]; intros Heq; by subst k.
  - by apply Qc_is_canon.
  - by apply Qc_is_canon.
Qed.



End VolumeFacts.

Module PhotoFacts.
Import Photos.

Lemma Z2Qc_le (a b : Z) : a ≤ b ↔ (Z2Qc a ≤ Z2Qc b)%Qc.
Proof.
  unfold Qcle, Z2Qc, Q2Qc. cbn [this]. rewrite !Qred_correct.
  by rewrite <-Zle_Qle.
Qed.

Lemma Z2Qc_lt (a b : Z) : a < b ↔ (Z2Qc a < Z2Qc b)%Qc.
Proof.
  unfold Qclt, Z2Qc, Q2Qc. cbn [this]. rewrite !Qred_correct.
  by rewrite <-Zlt_Qlt.
Qed.

Lemma Z2Qc_pos (p : positive) : (0 < Z2Qc (Zpos p))%Qc.
Proof. by apply (proj1 (Z2Qc_lt 0 (Zpos p))). Qed.

Lemma Z2Qc_nonzero (p : positive) : Z2Qc (Zpos p) ≠ 0%Qc.
Proof. intros Hp. pose proof (Z2Qc_pos p) as Hlt. by rewrite Hp in Hlt. Qed.

Lemma Qceiling_Z2Qc_le (number : Qc) (n : Z) :
  (number ≤ Z2Qc n)%Qc → Qceiling number ≤ n.
Proof.
  intros Hle. rewrite <-(Qceiling_Z n).
  apply Qceiling_resp_le. unfold Qcle, Z2Qc, Q2Qc in Hle. cbn [this] in Hle.
  by rewrite Qred_correct in Hle.
Qed.

(** The rounded side stays between 1 and any integer bound of the exact
    side, whichever of floor and ceiling the key prefers. *)
Lemma round_aspect_bounds (number : Qc) (key : Z → Qc) (n : Z) :
  1 ≤ n → (number ≤ Z2Qc n)%Qc → 1 ≤ round_aspect number key ≤ n.
Proof.
  intros Hn Hle. unfold round_aspect. cbv zeta.
  pose proof (Qceiling_Z2Qc_le number n Hle) as Hhi.
  pose proof (Qle_floor_ceiling number) as Hlo.
  rewrite <-Zle_Qle in Hlo.
  destruct (decide _); lia.
Qed.

Section Thumbnail.
Variable im : image.
Let w : Z := Zpos (width im).
Let h : Z := Zpos (height im).
Let aspect : Qc := (Z2Qc w / Z2Qc h)%Qc.

Lemma aspect_pos : (0 < aspect)%Qc.
Proof.
  unfold aspect, Qcdiv. apply Qcmult_pos_pos; [apply Z2Qc_pos|].
  apply Qcinv_pos, Z2Qc_pos.
Qed.

Lemma aspect_height : (aspect * Z2Qc h)%Qc = Z2Qc w.
Proof. unfold aspect. field. apply Z2Qc_nonzero. Qed.

(** Portrait or square: the width side, [y * aspect], is at most [y]
    and, when the height exceeds [y], at most the width. *)
Lemma portrait_side (y : Z) :
  0 ≤ y → (aspect ≤ 1)%Qc →
  (Z2Qc y * aspect ≤ Z2Qc y)%Qc ∧ w ≤ h ∧
  (y ≤ h → (Z2Qc y * aspect ≤ Z2Qc w)%Qc).
Proof.
  intros Hy Ha. split; [|split].
  - apply Qcle_trans with (Z2Qc y * 1)%Qc.
    + apply Qcmult_le_mono_nonneg_l; [by apply (proj1 (Z2Qc_le 0 y))|done].
    + rewrite Qcmult_1_r. apply Qcle_refl.
  - apply Z2Qc_le. rewrite <-aspect_height.
    apply Qcle_trans with (1 * Z2Qc h)%Qc.
    + apply Qcmult_le_mono_nonneg_r; [|done].
      apply Qclt_le_weak, Z2Qc_pos.
    + rewrite Qcmult_1_l. apply Qcle_refl.
  - intros Hyh. rewrite <-aspect_height, (Qcmult_comm (Z2Qc y)).
    apply Qcmult_le_mono_nonneg_l; [apply Qclt_le_weak, aspect_pos|].
    by apply (proj1 (Z2Qc_le _ _)).
Qed.

(** Landscape: the height side, [x / aspect], is at most [x] and, when
    the width is at least [x], at most the height. *)
Lemma landscape_side (x : Z) :
  0 ≤ x → (1 < aspect)%Qc →
  (Z2Qc x / aspect ≤ Z2Qc x)%Qc ∧ h < w ∧
  (x ≤ w → (Z2Qc x / aspect ≤ Z2Qc h)%Qc).
Proof.
  intros Hx Ha.
  assert (aspect ≠ 0%Qc) as Hne
    by (intros H0; pose proof aspect_pos as Hp; by rewrite H0 in Hp).
  assert (Z2Qc x / aspect * aspect = Z2Qc x)%Qc as Hcancel by (by field).
  split; [|split].
  - apply (Qcmult_le_mono_pos_r _ _ aspect aspect_pos). rewrite Hcancel.
    apply Qcle_trans with (Z2Qc x * 1)%Qc.
    + rewrite Qcmult_1_r. apply Qcle_refl.
    + apply Qcmult_le_mono_nonneg_l; [by apply (proj1 (Z2Qc_le 0 x))|].
      by apply Qclt_le_weak.
  - apply Z2Qc_lt. rewrite <-aspect_height.
    apply Qcle_lt_trans with (1 * Z2Qc h)%Qc.
    + rewrite Qcmult_1_l. apply Qcle_refl.
    + apply Qcmult_lt_mono_pos_r; [apply Z2Qc_pos|done].
  - intros Hxw. apply (Qcmult_le_mono_pos_r _ _ aspect aspect_pos).
    rewrite Hcancel, (Qcmult_comm (Z2Qc h)), aspect_height.
    by apply (proj1 (Z2Qc_le _ _)).
Qed.

End Thumbnail.

Lemma square_ratio : (Z2Qc 1280 / Z2Qc 1280)%Qc = 1%Qc.
Proof. by apply Qc_is_canon. Qed.

(** What [thumbnail((1280, 1280))] leaves: an image inside the box, no
    larger than the one it was given, and the very same image when that
    one was inside the box already. *)
Lemma thumbnail_1280 (im : image) :
  let out := thumbnail (1280, 1280) im in
  (Zpos (width out) ≤ 1280 ∧ Zpos (height out) ≤ 1280) ∧
  (Zpos (width out) ≤ Zpos (width im) ∧
   Zpos (height out) ≤ Zpos (height im)) ∧
  (Zpos (width im) ≤ 1280 → Zpos (height im) ≤ 1280 → out = im).
Proof.
  unfold thumbnail, preserve_aspect_ratio.
  destruct (decide (Zpos (width im) ≤ 1280 ∧ Zpos (height im) ≤ 1280))
    as [[Hw Hh]|Hbig]; [by simpl|].
  rewrite square_ratio.
  destruct (decide _) as [Ha|Ha]; cbn [width height].
  - destruct (portrait_side im 1280 ltac:(lia) Ha) as (Hbox & Hwh & Hside).
    set (key := λ n : Z, _).
    pose proof (round_aspect_bounds _ key 1280 ltac:(lia) Hbox) as Hr.
    assert (1280 ≤ Zpos (height im)) as Hh by lia.
    pose proof (round_aspect_bounds _ key (Zpos (width im)) ltac:(lia)
                  (Hside Hh)) as Hr'.
    rewrite Z2Pos.id by lia. lia.
  - apply Qcnot_le_lt in Ha.
    destruct (landscape_side im 1280 ltac:(lia) Ha) as (Hbox & Hwh & Hside).
    set (key := λ n : Z, _).
    pose proof (round_aspect_bounds _ key 1280 ltac:(lia) Hbox) as Hr.
    assert (1280 ≤ Zpos (width im)) as Hw by lia.
    pose proof (round_aspect_bounds _ key (Zpos (height im)) ltac:(lia)
                  (Hside Hw)) as Hr'.
    rewrite Z2Pos.id by lia. lia.
Qed.


(** C10. [write_photo] never enlarges: the stored image is no wider and
    no higher than the upload, and an upload whose width and height are
    both at most 1280 is stored with exactly its own dimensions. *)
Theorem write_photo_never_enlarges (photo_date caption : string)
    (file : image) (photos : list photo) :
  ∃ stored,
    write_photo photo_date caption file photos = photos ++ [stored] ∧
    Zpos (width (image_b64 stored)) ≤ Zpos (width file) ∧
    Zpos (height (image_b64 stored)) ≤ Zpos (height file) ∧
    (Zpos (width file) ≤ 1280 → Zpos (height file) ≤ 1280 →
     image_b64 stored = file).
Proof.
  eexists. split; [reflexivity|]. simpl.
  destruct (thumbnail_1280 file) as (_ & [Hw Hh] & Hsame). done.
Qed.

Lemma write_photo_never_enlarges_witness :
  ∃ stored,
    write_photo "2024-01-01" "Week 4" {| width := 800; height := 600 |} []
      = [stored] ∧
    image_b64 stored = {| width := 800; height := 600 |}.
Proof.
  destruct (write_photo_never_enlarges "2024-01-01" "Week 4"
              {| width := 800; height := 600 |} [])
    as (stored & Hrow & _ & _ & Hsame).
  exists stored. split; [exact Hrow|]. apply Hsame; simpl; lia.
Defined.

End PhotoFacts.

Module SettingsFacts.
Import Engine Settings.

(** A transaction that ends in an error has changed nothing. *)
Lemma begin_failed {S : Type} (fl : faults) (body : S → error + S) (db : S)
    (e : error) :
  (begin fl body db).1 = inl e → (begin fl body db).2 = db.
Proof.
  unfold begin. destruct (body db) as [e'|db']; [done|].
  by destruct (on_commit fl).
Qed.

(** A transaction that ends normally holds what its body computed. *)
Lemma begin_committed {S : Type} (fl : faults) (body : S → error + S)
    (db : S) :
  (begin fl body db).1 = inr () → body db = inr (begin fl body db).2.
Proof.
  unfold begin. destruct (body db) as [e'|db']; [done|].
  by destruct (on_commit fl).
Qed.

(** The UPDATE, when it runs, writes the seven columns of row 1 at once. *)
Lemma execute_update_ok (fl : faults) (a : params) (settings settings' : list row) :
  execute_update fl a settings = inr settings' →
  settings' =
    (λ r, if decide (id r = 1)
          then {| id := id r; calories := cal a; protein_g := p a;
                  fat_g := f a; carb_g_rest := cr a; carb_g_lift := cl a;
                  carb_g_football := cf a; tdee := tdee' a |}
          else r) <$> settings.
Proof.
  unfold execute_update.
  destruct (negb _); [done|]. destruct (on_execute fl); [done|].
  by intros [= <-].
Qed.

(** C2. [update_settings] is all-or-nothing. If it fails (a missing or
    unconvertible value, a parameter the driver refuses, an error of the
    engine while executing or committing) the settings table is exactly
    what it was, so none of calories, protein_g, fat_g, carb_g_rest,
    carb_g_lift, carb_g_football and tdee has changed; if it succeeds, the
    row with id 1 has all seven new values. *)
Theorem update_settings_atomic (fl : faults) (d : gmap string pyval)
    (settings : list row) :
  (∀ e, (update_settings fl d settings).1 = inl e →
        (update_settings fl d settings).2 = settings) ∧
  ((update_settings fl d settings).1 = inr () →
   ∃ a, bound_params d = inr a ∧
     (update_settings fl d settings).2 =
       (λ r, if decide (id r = 1)
             then {| id := id r; calories := cal a; protein_g := p a;
                     fat_g := f a; carb_g_rest := cr a; carb_g_lift := cl a;
                     carb_g_football := cf a; tdee := tdee' a |}
             else r) <$> settings).
Proof.
  unfold update_settings. split.
  - intros e. apply begin_failed.
  - intros Hok. apply begin_committed in Hok.
    destruct (bound_params d) as [e|a]; [done|].
    exists a. split; [done|]. by apply (execute_update_ok fl).
Qed.

Lemma update_settings_atomic_witness :
  (update_settings no_faults (<["tdee" := PyNaN]> (to_dict seeded)) [seeded]).2
    = [seeded] ∧
  (update_settings {| on_execute := None; on_commit := Some OperationalError |}
     (<["calories" := PyInt 2300]> (to_dict seeded)) [seeded]).2
    = [seeded].
Proof.
  split.
  - apply (proj1 (update_settings_atomic _ _ _) ValueError). reflexivity.
  - apply (proj1 (update_settings_atomic _ _ _) OperationalError).
    reflexivity.
Defined.

(** C8. [get_settings] returns the first row of the settings table (the
    singleton row, when the table holds one row) whenever the table is not
    empty, and the default macro targets together with the TDEE estimate
    when it is empty. *)
Theorem get_settings_cases :
  get_settings [] =
    {[ "calories" := PyInt 2450; "protein_g" := PyInt 190;
       "fat_g" := PyInt 60; "carb_g_rest" := PyInt 220;
       "carb_g_lift" := PyInt 280; "carb_g_football" := PyInt 320;
       "tdee" := PyInt 3000 ]} ∧
  (∀ r : row, get_settings [r] = to_dict r) ∧
  (∀ (r : row) (rest : list row), get_settings (r :: rest) = to_dict r) ∧
  (∀ r : row,
     to_dict r !! "calories" = Some (PyInt (calories r)) ∧
     to_dict r !! "protein_g" = Some (PyInt (protein_g r)) ∧
     to_dict r !! "fat_g" = Some (PyInt (fat_g r)) ∧
     to_dict r !! "carb_g_rest" = Some (PyInt (carb_g_rest r)) ∧
     to_dict r !! "carb_g_lift" = Some (PyInt (carb_g_lift r)) ∧
     to_dict r !! "carb_g_football" = Some (PyInt (carb_g_football r)) ∧
     to_dict r !! "tdee" = Some (PyInt (tdee r))).
Proof.
  split; [|split; [done|split; [done|]]].
  - vm_compute. reflexivity.
  - intros r. unfold to_dict. repeat split; by simplify_map_eq.
Qed.

End SettingsFacts.

Module WorkoutsFacts.
Import Engine Workouts.

Lemma field_id (r : row) : field table_columns (cells r) "id" = Some (Int (id r)).
Proof. reflexivity. Qed.

(** The export carries the [id] column, one integer per row. *)
Lemma load_table_id_column (workouts : list row) :
  column (load_table workouts) "id" = Some ((λ r, Int (id r)) <$> workouts).
Proof.
  unfold column. simpl. apply mapM_Some.
  induction workouts as [|r workouts IH]; simpl; constructor; [|done].
  apply field_id.
Qed.

Section ImportFacts.
Variable cd : codec.
Variable rowid_of_text : string → option Z.
Variable affinity : string → cell → cell.
Hypothesis Hheader : header_kept cd.
Hypothesis Hint : integers_kept cd.

Abbreviation insert_all := (insert_all rowid_of_text affinity).
Abbreviation insert_record := (insert_record rowid_of_text affinity).
Abbreviation export_import := (export_import cd rowid_of_text affinity).

Lemma reread_columns (workouts : list row) :
  columns (reread cd workouts) = table_columns.
Proof. unfold reread, dl. by rewrite Hheader. Qed.

(** The file read back has one record per exported row, each with the
    row's id in its [id] field. *)
Lemma reread_ids (workouts : list row) :
  Forall2 (λ record n, field table_columns record "id" = Some (Int n))
    (data (reread cd workouts)) (id <$> workouts).
Proof.
  pose proof (Hint _ _ _ (load_table_id_column workouts)) as Hcol.
  unfold column in Hcol. fold (reread cd workouts) in Hcol.
  assert (Forall is_int ((λ r, Int (id r)) <$> workouts)) as Hall.
  { apply Forall_fmap, Forall_forall. by intros. }
  apply Hcol, mapM_Some in Hall.
  change (dl cd (load_table workouts))
    with (to_csv cd (load_table workouts)) in *.
  fold (dl cd (load_table workouts)) in Hall.
  fold (reread cd workouts) in Hall. rewrite reread_columns in Hall.
  apply Forall2_fmap_r in Hall. apply Forall2_fmap_r. exact Hall.
Qed.

Lemma insert_record_collision (cols : list string) (workouts : list row)
    (record : list cell) (n : Z) :
  field cols record "id" = Some (Int n) → fits_int64 n = true →
  n ∈ id <$> workouts →
  insert_record cols workouts record = inl IntegrityError.
Proof.
  intros Hf Hfit Hin. unfold insert_record, rowid. rewrite Hf, Hfit. simpl.
  by rewrite decide_True.
Qed.

Lemma insert_record_fresh (cols : list string) (workouts : list row)
    (record : list cell) (n : Z) :
  field cols record "id" = Some (Int n) → fits_int64 n = true →
  n ∉ id <$> workouts →
  insert_record cols workouts record
    = inr (workouts ++ [row_of_record affinity cols n record]).
Proof.
  intros Hf Hfit Hin. unfold insert_record, rowid. rewrite Hf, Hfit. simpl.
  by rewrite decide_False.
Qed.

(** Records that bring distinct ids, none of them in the table, are all
    inserted, in order, under the ids they bring. *)
Lemma insert_all_fresh (cols : list string) (records : list (list cell))
    (ns : list Z) (workouts : list row) :
  Forall2 (λ record n, field cols record "id" = Some (Int n)) records ns →
  NoDup ns → Forall (λ n, fits_int64 n = true) ns →
  (∀ n, n ∈ ns → n ∉ id <$> workouts) →
  insert_all cols workouts records
    = inr (workouts ++ zip_with (row_of_record affinity cols) ns records).
Proof.
  intros Hrec. revert workouts.
  induction Hrec as [|record n records ns Hf _ IH]; intros workouts Hnd Hfit Hnew.
  - simpl. by rewrite app_nil_r.
  - apply NoDup_cons in Hnd as [Hn Hnd]. apply Forall_cons in Hfit as [Hn64 Hfit].
    simpl. rewrite (insert_record_fresh _ _ _ n); [|done..|].
    2:{ apply Hnew. by left. }
    simpl. rewrite IH; [|done..|].
    + by rewrite <-app_assoc.
    + intros m Hm. rewrite fmap_app. simpl. intros Hin.
      apply elem_of_app in Hin as [Hin|Hin].
      * by apply (Hnew m); [right|].
      * apply list_elem_of_singleton in Hin. by subst m.
Qed.

Lemma to_sql_append_no_faults (df : frame) (workouts : list row) :
  data df ≠ [] →
  to_sql_append rowid_of_text affinity no_faults df workouts =
    match (if decide (columns df ⊆ table_columns)
           then insert_all (columns df) workouts (data df)
           else inl OperationalError) with
    | inl e => (inl e, workouts)
    | inr workouts' => (inr (), workouts')
    end.
Proof.
  intros Hne. unfold to_sql_append.
  destruct (data df) as [|record records]; [done|].
  unfold begin. simpl. destruct (decide _); [|done].
  by destruct (Engine.bind _ _).
Qed.

Lemma zip_with_ids (cols : list string) (records : list (list cell))
    (ns : list Z) :
  length records = length ns →
  id <$> zip_with (row_of_record affinity cols) ns records = ns.
Proof.
  revert records. induction ns as [|n ns IH]; intros [|record records] Hlen;
    try done.
  simpl in *. f_equal. apply IH. lia.
Qed.

(** Importing the export into the table it came from: every record
    brings an id the table already holds, so the first INSERT fails (or
    the engine fails before it) and the transaction leaves the table as
    it was. *)
Lemma export_import_collides (fl : faults) (workouts : list row) :
  valid_table workouts → workouts ≠ [] →
  export_import fl workouts workouts
    = (inl (default IntegrityError (on_execute fl)), workouts).
Proof.
  intros [_ Hfit] Hne.
  unfold Workouts.export_import, import_csv, to_sql_append.
  fold (reread cd workouts).
  pose proof (reread_ids workouts) as Hids.
  pose proof (reread_columns workouts) as Hcols.
  destruct workouts as [|r0 rest]; [done|].
  apply Forall_cons in Hfit as [Hfit0 _].
  simpl in Hids. inversion Hids as [|record n records ns Hf Hrest Hd]; subst.
  unfold begin. destruct (on_execute fl) as [e|]; [done|].
  rewrite Hcols, decide_True by done. simpl.
  rewrite (insert_record_collision _ _ _ (id r0)); [done..|].
  simpl. by left.
Qed.


End ImportFacts.

Lemma lossless_header_kept : header_kept lossless.
Proof. by intros df. Qed.

Lemma lossless_integers_kept : integers_kept lossless.
Proof. by intros df c col Hcol _. Qed.

Lemma logged_valid : valid_table [logged].
Proof.
  split.
  - apply NoDup_singleton.
  - by repeat constructor.
Qed.



End WorkoutsFacts.

(** * Further properties of the calculator *)
Module CalcMore.
Import Calc CalcFacts Volume Dashboard.

Lemma Qcinv_antitone (a b : Qc) : (0 < a)%Qc → (a ≤ b)%Qc → (/ b ≤ / a)%Qc.
Proof.
  intros Ha Hab.
  assert (0 < b)%Qc as Hb by (by apply Qclt_le_trans with a).
  assert (a ≠ 0%Qc) as Hane by (intros ->; by apply Qclt_not_eq in Ha).
  assert (b ≠ 0%Qc) as Hbne by (intros ->; by apply Qclt_not_eq in Hb).
  apply (Qcmult_le_mono_pos_r _ _ (a * b)%Qc); [by apply Qcmult_pos_pos|].
  replace (/ b * (a * b))%Qc with a by (by field).
  replace (/ a * (a * b))%Qc with b by (by field).
  done.
Qed.

Lemma denominator_pos (r : Qc) : (r < qc 37 1)%Qc → (0 < qc 37 1 - r)%Qc.
Proof. intros Hr. by apply (proj1 (Qclt_minus_iff r (qc 37 1))). Qed.

Lemma denominator_antitone (r1 r2 : Qc) :
  (r1 ≤ r2)%Qc → (qc 37 1 - r2 ≤ qc 37 1 - r1)%Qc.
Proof.
  intros Hr. unfold Qcminus.
  apply Qcplus_le_mono_l. by apply Qcopp_le_compat.
Qed.

(** The factor [36 / (37 - reps)] is positive below the singularity and
    grows with the reps. *)
Lemma factor_monotone (r1 r2 : Qc) :
  (r1 ≤ r2)%Qc → (r2 < qc 37 1)%Qc →
  (0 < qc 36 1 / (qc 37 1 - r1))%Qc ∧
  (qc 36 1 / (qc 37 1 - r1) ≤ qc 36 1 / (qc 37 1 - r2))%Qc.
Proof.
  intros H12 H2.
  assert (r1 < qc 37 1)%Qc as H1 by (by apply Qcle_lt_trans with r2).
  pose proof (denominator_pos r1 H1) as Hd1.
  pose proof (denominator_pos r2 H2) as Hd2.
  unfold Qcdiv. split.
  - apply Qcmult_pos_pos; [reflexivity|]. by apply Qcinv_pos.
  - apply Qcmult_le_mono_nonneg_l; [by apply Qclt_le_weak|].
    apply Qcinv_antitone; [done|]. by apply denominator_antitone.
Qed.

Lemma factor_one : (qc 36 1 / (qc 37 1 - 1))%Qc = 1%Qc.
Proof. by apply Qc_is_canon. Qed.

Lemma factor_thirty : (qc 36 1 / (qc 37 1 - qc 30 1))%Qc = qc 36 7.
Proof. by apply Qc_is_canon. Qed.

Lemma below_37 (r : Qc) : (r < qc 37 1)%Qc → r ≠ qc 37 1.
Proof. intros Hr ->. by apply Qclt_not_eq in Hr. Qed.

(** X1. At a given weight, more reps mean a higher estimate, all the way up
    to the singularity. *)
Theorem e1rm_grows_with_reps (w r1 r2 : Qc) :
  (0 ≤ w)%Qc → (0 < r1)%Qc → (r1 ≤ r2)%Qc → (r2 < qc 37 1)%Qc →
  ∃ v1 v2, e1rm (Some w) (Some r1) = Num v1 ∧
           e1rm (Some w) (Some r2) = Num v2 ∧ (v1 ≤ v2)%Qc.
Proof.
  intros Hw H1 H12 H2.
  assert (r1 < qc 37 1)%Qc as H1' by (by apply Qcle_lt_trans with r2).
  assert (0 < r2)%Qc as H2' by (by apply Qclt_le_trans with r1).
  eexists _, _. split; [|split].
  - apply e1rm_value; [done|by apply below_37].
  - apply e1rm_value; [done|by apply below_37].
  - apply Qcmult_le_mono_nonneg_l; [done|].
    by apply factor_monotone.
Qed.

Lemma e1rm_grows_with_reps_witness :
  ∃ v1 v2, e1rm (Some (qc 100 1)) (Some (qc 5 1)) = Num v1 ∧
           e1rm (Some (qc 100 1)) (Some (qc 8 1)) = Num v2 ∧ (v1 ≤ v2)%Qc.
Proof.
  apply (e1rm_grows_with_reps (qc 100 1) (qc 5 1) (qc 8 1)); by vm_compute.
Defined.



(** X3. From one rep on, the estimate is never below the weight lifted, and
    for a single rep it is the weight itself. *)
Theorem e1rm_at_least_weight (w r : Qc) :
  (0 ≤ w)%Qc → (1 ≤ r)%Qc → (r < qc 37 1)%Qc →
  ∃ v, e1rm (Some w) (Some r) = Num v ∧ (w ≤ v)%Qc ∧ (r = 1%Qc → v = w).
Proof.
  intros Hw H1 H37.
  assert (0 < r)%Qc as H0 by (by apply Qclt_le_trans with 1%Qc).
  eexists. split; [|split].
  - apply e1rm_value; [done|by apply below_37].
  - apply Qcle_trans with (w * 1)%Qc.
    + rewrite Qcmult_1_r. apply Qcle_refl.
    + apply Qcmult_le_mono_nonneg_l; [done|].
      rewrite <-factor_one. by apply factor_monotone.
  - intros ->. by rewrite factor_one, Qcmult_1_r.
Qed.

Lemma e1rm_at_least_weight_witness :
  e1rm (Some (qc 45 2)) (Some 1%Qc) = Num (qc 45 2).
Proof.
  destruct (e1rm_at_least_weight (qc 45 2) 1%Qc) as (v & Hv & _ & Heq);
    [by vm_compute..|].
  rewrite Hv. f_equal. by apply Heq.
Defined.

End CalcMore.

(** * Further properties of the weekly volume and of the e1RM trend *)
Module DashboardFacts.
Import Calc CalcFacts Calendar Volume VolumeFacts Dashboard CalcMore.

Lemma Z2Qc_one : Z2Qc 1 = 1%Qc.
Proof. by apply Qc_is_canon. Qed.

Lemma Z2Qc_thirty : Z2Qc 30 = qc 30 1.
Proof. by apply Qc_is_canon. Qed.

(** X4. Every point of the e1RM chart that comes from a row logged through
    the form is a key lift with a finite estimate, between the weight
    lifted and 36/7 of it: the form's 30 reps keep the formula away from
    its singularity. *)
Theorem e1rm_trend_bounded (w : list entry) :
  Forall form_bounds w →
  Forall (λ pt, exercise pt.1 ∈ key_lifts ∧
                ∃ v, pt.2 = Num v ∧ (weight pt.1 ≤ v)%Qc ∧
                     (v ≤ qc 36 7 * weight pt.1)%Qc)
    (e1rm_trend w).
Proof.
  intros Hw. unfold e1rm_trend. apply Forall_fmap, Forall_forall.
  intros e He. apply list_elem_of_filter in He as [Hlift He].
  rewrite Forall_forall in Hw.
  destruct (Hw e He) as (_ & [Hr1 Hr30] & Hw0 & _).
  apply PhotoFacts.Z2Qc_le in Hr1, Hr30.
  rewrite Z2Qc_one in Hr1. rewrite Z2Qc_thirty in Hr30.
  assert (Z2Qc (reps e) < qc 37 1)%Qc as H37
    by (by apply Qcle_lt_trans with (qc 30 1)).
  assert (0 < Z2Qc (reps e))%Qc as H0
    by (by apply Qclt_le_trans with 1%Qc).
  simpl. split; [done|]. eexists. split; [|split].
  - apply e1rm_value; [done|by apply below_37].
  - apply Qcle_trans with (weight e * 1)%Qc.
    + rewrite Qcmult_1_r. apply Qcle_refl.
    + apply Qcmult_le_mono_nonneg_l; [done|].
      rewrite <-factor_one. by apply factor_monotone.
  - rewrite (Qcmult_comm (qc 36 7)), <-factor_thirty.
    apply Qcmult_le_mono_nonneg_l; [done|].
    by apply factor_monotone.
Qed.

Lemma e1rm_trend_bounded_witness :
  Forall (λ pt, exercise pt.1 ∈ key_lifts ∧
                ∃ v, pt.2 = Num v ∧ (weight pt.1 ≤ v)%Qc ∧
                     (v ≤ qc 36 7 * weight pt.1)%Qc)
    (e1rm_trend [monday_row; tuesday_row]).
Proof.
  apply e1rm_trend_bounded.
  repeat constructor; simpl; try lia; by vm_compute.
Defined.

(** X5. A row logged through the form has the exact volume
    sets x reps x weight, no 64-bit wrap-around, between 0 and 150000. *)
Theorem form_volume_exact (e : entry) :
  form_bounds e →
  volume e = (Z2Qc (sets e) * Z2Qc (reps e) * weight e)%Qc ∧
  (0 ≤ volume e)%Qc ∧ (volume e ≤ qc 150000 1)%Qc.
Proof.
  intros ([Hs1 Hs10] & [Hr1 Hr30] & Hw0 & Hw500 & _).
  assert (1 ≤ sets e * reps e ≤ 300) as Hprod by nia.
  assert (volume e = (Z2Qc (sets e * reps e) * weight e)%Qc) as Hv.
  { unfold volume. rewrite int64_exact; [done|lia]. }
  split; [apply volume_exact; lia|]. rewrite Hv.
  assert (0 ≤ Z2Qc (sets e * reps e))%Qc as Hn0
    by (apply (proj1 (PhotoFacts.Z2Qc_le 0 _)); lia).
  assert (Z2Qc (sets e * reps e) ≤ Z2Qc 300)%Qc as Hn300
    by (apply (proj1 (PhotoFacts.Z2Qc_le _ 300)); lia).
  split.
  - by apply Qcmult_nonneg_nonneg.
  - apply Qcle_trans with (Z2Qc 300 * weight e)%Qc.
    + by apply Qcmult_le_mono_nonneg_r.
    + replace (qc 150000 1) with (Z2Qc 300 * qc 500 1)%Qc
        by (by apply Qc_is_canon).
      by apply Qcmult_le_mono_nonneg_l.
Qed.

Lemma form_volume_exact_witness :
  volume tuesday_row = (Z2Qc 3 * Z2Qc 8 * qc 45 2)%Qc.
Proof.
  apply (form_volume_exact tuesday_row).
  repeat split; simpl; try lia; by vm_compute.
Defined.

End DashboardFacts.

Module VolumeMore.
Import Calendar Volume VolumeFacts Dashboard.

Lemma week_bin_cases (date : Z) :
  week_bin date =
    if decide (weekday date = 0) then iso_week_start date
    else iso_week_start date + 7.
Proof.
  unfold week_bin, iso_week_start.
  pose proof (weekday_range date) as Ha.
  destruct (decide (weekday date = 0)) as [->|Hne]; [done|].
  assert ((- weekday date) mod 7 = 7 - weekday date) as ->; [|lia].
  symmetry. apply (Z.mod_unique_pos _ _ (-1)); lia.
Qed.

Lemma monday_multiple (date : Z) : weekday date = 0 → ∃ k, date + 3 = 7 * k.
Proof.
  unfold weekday. intros H0. exists ((date + 3) / 7).
  pose proof (Z_div_mod_eq_full (date + 3) 7). lia.
Qed.

(** X6. How the chart's weekly bins sit against ISO weeks: a Monday is
    binned under its own date, together with the six days before it, and
    every other day under the Monday after its ISO week. Binning a bin's
    label changes nothing, and later dates never land in earlier bins. *)
Theorem week_bin_against_iso_week (date : Z) :
  week_bin date =
    (if decide (weekday date = 0) then iso_week_start date
     else iso_week_start date + 7) ∧
  (weekday date = 0 → week_bin date = date) ∧
  week_bin (week_bin date) = week_bin date ∧
  (∀ later, date ≤ later → week_bin date ≤ week_bin later).
Proof.
  pose proof (week_bin_span date) as [Hmon Hspan].
  split; [apply week_bin_cases|]. split; [|split].
  - intros H0. rewrite week_bin_cases, decide_True by done.
    unfold iso_week_start. lia.
  - rewrite (week_bin_cases (week_bin date)), decide_True by done.
    unfold iso_week_start. lia.
  - intros later Hle.
    pose proof (week_bin_span later) as [Hmon' Hspan'].
    apply monday_multiple in Hmon as [k Hk].
    apply monday_multiple in Hmon' as [k' Hk']. lia.
Qed.

Lemma week_bin_against_iso_week_witness :
  week_bin (ymd 2024 1 1) = ymd 2024 1 1 ∧
  week_bin (ymd 2024 1 2) ≤ week_bin (ymd 2024 1 5).
Proof.
  destruct (week_bin_against_iso_week (ymd 2024 1 1)) as (_ & Hmon & _).
  destruct (week_bin_against_iso_week (ymd 2024 1 2)) as (_ & _ & _ & Hle).
  split; [by apply Hmon|]. apply Hle. by vm_compute.
Defined.

Lemma total_app (l1 l2 : list Qc) :
  foldr Qcplus 0%Qc (l1 ++ l2)
    = (foldr Qcplus 0%Qc l1 + foldr Qcplus 0%Qc l2)%Qc.
Proof.
  induction l1 as [|x l1 IH]; simpl.
  - by rewrite Qcplus_0_l.
  - rewrite IH. apply Qcplus_assoc.
Qed.


Section Conservation.
Context {K : Type} `{Countable K}.
Variable key : entry → K.

Let total (m : gmap K Qc) : Qc := map_fold (λ _ v acc, (v + acc)%Qc) 0%Qc m.

Lemma total_insert (m : gmap K Qc) (k : K) (v : Qc) :
  m !! k = None → total (<[k := v]> m) = (v + total m)%Qc.
Proof.
  intros Hk. unfold total. apply map_fold_insert_L; [|done].
  intros. ring.
Qed.

Lemma total_add_row (m : gmap K Qc) (e : entry) :
  total (add_row key m e) = (total m + volume e)%Qc.
Proof.
  unfold add_row. destruct (m !! key e) as [x|] eqn:Hk; simpl.
  - rewrite <-(insert_delete_id m (key e) x Hk) at 2.
    rewrite <-insert_delete_eq.
    rewrite !total_insert by apply lookup_delete_eq. ring.
  - rewrite total_insert by done. ring.
Qed.

Lemma total_foldl (w : list entry) (m : gmap K Qc) :
  total (foldl (add_row key) m w)
    = (total m + foldr Qcplus 0%Qc (volume <$> w))%Qc.
Proof.
  revert m. induction w as [|e w IH]; intros m; simpl.
  - by rewrite Qcplus_0_r.
  - rewrite IH, total_add_row. symmetry. apply Qcplus_assoc.
Qed.

End Conservation.


End VolumeMore.

(** * Further properties of the photo upload *)
Module PhotoMore.
Import Photos PhotoFacts.

Lemma Z2Qc_plus (a b : Z) : Z2Qc (a + b) = (Z2Qc a + Z2Qc b)%Qc.
Proof.
  apply Qc_is_canon. unfold Z2Qc, Qcplus, Q2Qc. cbn [this].
  rewrite !Qred_correct. by rewrite inject_Z_plus.
Qed.

Lemma Z2Qc_below (n : Z) (x : Qc) : (inject_Z n < x)%Q → (Z2Qc n < x)%Qc.
Proof.
  intros Hlt. unfold Qclt, Z2Qc, Q2Qc. cbn [this]. by rewrite Qred_correct.
Qed.

Lemma Z2Qc_above (n : Z) (x : Qc) : (x < inject_Z n)%Q → (x < Z2Qc n)%Qc.
Proof.
  intros Hlt. unfold Qclt, Z2Qc, Q2Qc. cbn [this]. by rewrite Qred_correct.
Qed.

(** The rounded side is the floor or the ceiling of the exact side, or 1
    when that would be 0: always less than one pixel away. *)
Lemma round_aspect_close (number : Qc) (key : Z → Qc) :
  (0 < number)%Qc →
  (Z2Qc (round_aspect number key) - 1 < number)%Qc ∧
  (number < Z2Qc (round_aspect number key) + 1)%Qc.
Proof.
  intros Hpos.
  pose proof (Qle_floor_ceiling number) as Hfc. rewrite <-Zle_Qle in Hfc.
  pose proof (Qle_ceiling number) as Hc.
  pose proof (Qceiling_lt number) as Hc'.
  pose proof (Qlt_floor number) as Hf.
  assert (1 ≤ Qceiling number) as Hc1.
  { assert (0 < Qceiling number); [|lia].
    rewrite Zlt_Qlt. by apply Qlt_le_trans with number. }
  assert (Qfloor number ≤ round_aspect number key ≤ Qceiling number) as [Hlo Hhi].
  { unfold round_aspect. cbv zeta. destruct (decide _); lia. }
  assert (Z2Qc (-1) = (- 1)%Qc) as Hm1 by (by apply Qc_is_canon).
  assert (Z2Qc 1 = 1%Qc) as Hp1 by (by apply Qc_is_canon).
  unfold Qcminus. rewrite <-Hm1, <-Hp1, <-!Z2Qc_plus.
  split.
  - apply Z2Qc_below.
    apply Qle_lt_trans with (inject_Z (Qceiling number - 1)); [|done].
    rewrite <-Zle_Qle. lia.
  - apply Z2Qc_above.
    apply Qlt_le_trans with (inject_Z (Qfloor number + 1)); [done|].
    rewrite <-Zle_Qle. lia.
Qed.

(** X9. An upload that does not fit the 1280 x 1280 box is shrunk so that
    its longer side is exactly 1280 and its shorter side is within one
    pixel of the same scaling, so the aspect ratio is kept up to
    rounding. *)
Theorem thumbnail_keeps_aspect (im : image) :
  let w := Zpos (width im) in
  let h := Zpos (height im) in
  let out := thumbnail (1280, 1280) im in
  ¬ (w ≤ 1280 ∧ h ≤ 1280) →
  (w ≤ h →
   Zpos (height out) = 1280 ∧
   (Z2Qc (Zpos (width out)) - 1 < Z2Qc 1280 * (Z2Qc w / Z2Qc h))%Qc ∧
   (Z2Qc 1280 * (Z2Qc w / Z2Qc h) < Z2Qc (Zpos (width out)) + 1)%Qc) ∧
  (h < w →
   Zpos (width out) = 1280 ∧
   (Z2Qc (Zpos (height out)) - 1 < Z2Qc 1280 * (Z2Qc h / Z2Qc w))%Qc ∧
   (Z2Qc 1280 * (Z2Qc h / Z2Qc w) < Z2Qc (Zpos (height out)) + 1)%Qc).
Proof.
  intros w h out Hbig. subst out. unfold thumbnail, preserve_aspect_ratio.
  rewrite decide_False by done. rewrite square_ratio.
  pose proof (aspect_pos im) as Hasp. fold w h in Hasp.
  destruct (decide _) as [Ha|Ha]; cbn [width height].
  - destruct (portrait_side im 1280 ltac:(lia) Ha) as (Hbox & Hwh & _).
    fold w h in Hwh. split; [|intros; lia]. intros _.
    set (key := λ n : Z, _).
    pose proof (round_aspect_bounds _ key 1280 ltac:(lia) Hbox) as Hr.
    rewrite !Z2Pos.id by lia. split; [done|].
    apply round_aspect_close.
    apply Qcmult_pos_pos; [by apply (proj1 (Z2Qc_lt 0 1280))|done].
  - apply Qcnot_le_lt in Ha.
    destruct (landscape_side im 1280 ltac:(lia) Ha) as (Hbox & Hwh & _).
    fold w h in Hwh. split; [intros; lia|]. intros _.
    set (key := λ n : Z, _).
    pose proof (round_aspect_bounds _ key 1280 ltac:(lia) Hbox) as Hr.
    rewrite !Z2Pos.id by lia. split; [done|].
    assert (Z2Qc 1280 * (Z2Qc h / Z2Qc w) = Z2Qc 1280 / (Z2Qc w / Z2Qc h))%Qc
      as ->.
    { field. split; apply Z2Qc_nonzero. }
    apply round_aspect_close.
    unfold Qcdiv at 1.
    apply Qcmult_pos_pos; [by apply (proj1 (Z2Qc_lt 0 1280))|].
    by apply Qcinv_pos.
Qed.

Lemma thumbnail_keeps_aspect_witness :
  Zpos (width (thumbnail (1280, 1280) {| width := 4000; height := 3000 |}))
    = 1280 ∧
  (Z2Qc (Zpos (height (thumbnail (1280, 1280)
                         {| width := 4000; height := 3000 |}))) - 1
     < Z2Qc 1280 * (Z2Qc 3000 / Z2Qc 4000))%Qc.
Proof.
  destruct (thumbnail_keeps_aspect {| width := 4000; height := 3000 |})
    as [_ Hland]; [simpl; lia|].
  destruct Hland as (Hw & Hlo & _); [simpl; lia|].
  split; [exact Hw|exact Hlo].
Defined.

(** X10. What has been stored once is stored unchanged when uploaded again:
    the thumbnail of a thumbnail is that thumbnail. *)
Theorem write_photo_again (photo_date caption : string) (file : image)
    (photos : list photo) :
  write_photo photo_date caption (thumbnail (1280, 1280) file) photos =
    photos ++ [ {| photo_date := photo_date; caption := caption;
                   image_b64 := thumbnail (1280, 1280) file |} ].
Proof.
  unfold write_photo. do 2 f_equal.
  destruct (thumbnail_1280 file) as ([Hw Hh] & _).
  destruct (thumbnail_1280 (thumbnail (1280, 1280) file)) as (_ & _ & Hsame).
  f_equal. by apply Hsame.
Qed.

End PhotoMore.

(** * Further properties of the settings accessors *)
Module SettingsMore.
Import Engine Settings SettingsFacts SettingsTab.

(** [update_settings], case by case. *)
Lemma update_settings_unfold (fl : faults) (d : gmap string pyval)
    (settings : list row) :
  update_settings fl d settings =
    match bound_params d with
    | inl e => (inl e, settings)
    | inr a =>
        if forallb fits_int64 [cal a; p a; f a; cr a; cl a; cf a; tdee' a]
        then match on_execute fl, on_commit fl with
             | Some e, _ => (inl e, settings)
             | None, Some e => (inl e, settings)
             | None, None => (inr (), write a <$> settings)
             end
        else (inl OverflowError, settings)
    end.
Proof.
  unfold update_settings, begin, execute_update.
  destruct (bound_params d) as [e|a]; [done|]. cbn [bind].
  destruct (forallb _ _); [|done]. cbn [negb].
  destruct (on_execute fl); [done|]. by destruct (on_commit fl).
Qed.

Lemma write_ids (a : params) (settings : list row) :
  id <$> (write a <$> settings) = id <$> settings.
Proof.
  rewrite <-list_fmap_compose. apply list_fmap_ext. intros _ r _.
  unfold write. simpl. by destruct (decide _).
Qed.

Lemma write_others (a : params) (settings : list row) :
  filter (λ r, id r ≠ 1) (write a <$> settings)
    = filter (λ r, id r ≠ 1) settings.
Proof.
  induction settings as [|r settings IH]; [done|].
  rewrite fmap_cons. unfold write at 1.
  destruct (decide (id r = 1)) as [H1|H1].
  - rewrite !filter_cons_False; [done|..]; simpl; by intros ?.
  - rewrite !filter_cons_True by done. by rewrite IH.
Qed.

Lemma write_absent (a : params) (settings : list row) :
  Forall (λ r, id r ≠ 1) settings → write a <$> settings = settings.
Proof.
  induction 1 as [|r settings Hr _ IH]; [done|].
  rewrite fmap_cons, IH. unfold write. by rewrite decide_False.
Qed.

(** X11. Whatever it is given and however it ends, [update_settings] neither
    adds nor removes a row, changes no id, and leaves every row other
    than the one with id 1 as it was. *)
Theorem update_settings_touches_row_one (fl : faults)
    (d : gmap string pyval) (settings : list row) :
  let after := (update_settings fl d settings).2 in
  id <$> after = id <$> settings ∧
  length after = length settings ∧
  filter (λ r, id r ≠ 1) after = filter (λ r, id r ≠ 1) settings.
Proof.
  cbv zeta. rewrite update_settings_unfold.
  destruct (bound_params d) as [e|a]; [done|].
  destruct (forallb _ _); [|done].
  destruct (on_execute fl); [done|]. destruct (on_commit fl); [done|].
  cbn [snd]. split; [apply write_ids|]. split; [apply length_fmap|].
  apply write_others.
Qed.

(** X12. With no row of id 1 in the table (an empty table, say) a save is
    lost without a word: [update_settings] changes nothing, whether it
    reports success or not, and on the empty table [get_settings] goes
    on answering the defaults. *)
Theorem update_settings_without_row_one (fl : faults)
    (d : gmap string pyval) (settings : list row) :
  Forall (λ r, id r ≠ 1) settings →
  (update_settings fl d settings).2 = settings ∧
  (settings = [] →
   get_settings (update_settings fl d settings).2 = get_settings []).
Proof.
  intros Hnone.
  assert ((update_settings fl d settings).2 = settings) as Hsame.
  { rewrite update_settings_unfold.
    destruct (bound_params d) as [e|a]; [done|].
    destruct (forallb _ _); [|done].
    destruct (on_execute fl); [done|]. destruct (on_commit fl); [done|].
    by apply write_absent. }
  split; [done|]. intros ->. by rewrite Hsame.
Qed.

Lemma update_settings_without_row_one_witness :
  update_settings no_faults (tab_dict cut []) [] = (inr (), []) ∧
  get_settings (update_settings no_faults (tab_dict cut []) []).2
    = get_settings [].
Proof.
  split; [reflexivity|].
  apply (update_settings_without_row_one no_faults (tab_dict cut []) []);
    [constructor|reflexivity].
Defined.

Ltac read_key :=
  repeat (rewrite lookup_insert_ne by done);
  first [rewrite lookup_insert_eq | rewrite lookup_singleton_eq];
  cbn [bind py_int].

(** The dict the Settings tab hands over converts to the values the
    inputs returned. *)
Lemma bound_params_tab_dict (a : params) (settings : list row) :
  bound_params (tab_dict a settings) = inr a.
Proof.
  unfold bound_params, tab_dict, getitem.
  do 7 read_key. by destruct a.
Qed.

(** X13. Saving and reading back. When the first row of the table is the row
    with id 1 and the seven values fit in 64 bits, "Save Settings"
    succeeds and [get_settings] then returns exactly the saved values
    (under the row's id). *)
Theorem save_settings_then_get (a : params) (r : row) (rest : list row) :
  id r = 1 → params_fit a →
  (save_settings no_faults a (r :: rest)).1 = inr () ∧
  get_settings (save_settings no_faults a (r :: rest)).2
    = to_dict (updated a r) ∧
  bound_params (get_settings (save_settings no_faults a (r :: rest)).2)
    = inr a.
Proof.
  intros Hid Hfit. unfold save_settings.
  rewrite update_settings_unfold, bound_params_tab_dict.
  unfold params_fit in Hfit. rewrite Hfit. cbn [no_faults on_execute on_commit].
  cbn [fst snd]. split; [done|].
  rewrite fmap_cons. unfold write. rewrite decide_True by done.
  cbn [get_settings]. split; [done|].
  unfold bound_params, to_dict, getitem.
  do 7 read_key. by destruct a.
Qed.

Lemma save_settings_then_get_witness :
  get_settings (save_settings no_faults cut [seeded]).2
    = to_dict (updated cut seeded).
Proof.
  apply (save_settings_then_get cut seeded []); reflexivity.
Defined.

(** X14. Saving what was read changes nothing: with the row of id 1 first,
    no other row under that id and values within 64 bits,
    [update_settings(get_settings())] succeeds and leaves the table as it
    was. *)
Theorem update_settings_of_get_settings (r : row) (rest : list row) :
  id r = 1 → Forall (λ r', id r' ≠ 1) rest → params_fit (params_of r) →
  update_settings no_faults (get_settings (r :: rest)) (r :: rest)
    = (inr (), r :: rest).
Proof.
  intros Hid Hrest Hfit.
  assert (bound_params (get_settings (r :: rest)) = inr (params_of r)) as Hb.
  { cbn [get_settings]. unfold bound_params, to_dict, getitem.
    by do 7 read_key. }
  rewrite update_settings_unfold, Hb.
  unfold params_fit in Hfit. rewrite Hfit.
  cbn [no_faults on_execute on_commit]. f_equal.
  rewrite fmap_cons, (write_absent _ rest Hrest). f_equal.
  unfold write. rewrite decide_True by done. by destruct r.
Qed.

Lemma update_settings_of_get_settings_witness :
  update_settings no_faults (get_settings [seeded]) [seeded]
    = (inr (), [seeded]).
Proof.
  apply (update_settings_of_get_settings seeded []);
    [reflexivity|constructor|reflexivity].
Defined.

(** X15. Start-up seeding. It fills an empty settings table with the one row
    of id 1 and leaves any other table alone, so running it again
    changes nothing; the seeded row reads back as the fallback defaults
    plus its id; and after seeding [get_settings] always answers from a
    stored row. *)
Theorem seed_settings_once (settings : list row) :
  seed_settings (seed_settings settings) = seed_settings settings ∧
  seed_settings [] = [seeded] ∧
  (settings ≠ [] → seed_settings settings = settings) ∧
  get_settings (seed_settings []) = <["id" := PyInt 1]> (get_settings []) ∧
  (∃ r, head (seed_settings settings) = Some r ∧
        get_settings (seed_settings settings) = to_dict r).
Proof.
  split; [|split; [done|split; [|split]]].
  - by destruct settings.
  - intros Hne. by destruct settings.
  - vm_compute. reflexivity.
  - destruct settings as [|r rest].
    + by exists seeded.
    + by exists r.
Qed.

Lemma seed_settings_once_witness :
  seed_settings [seeded] = [seeded].
Proof.
  apply (proj1 (proj2 (proj2 (seed_settings_once [seeded])))). discriminate.
Defined.

End SettingsMore.

(** * Further properties of logging and importing workouts *)
Module WorkoutsMore.
Import Engine Workouts WorkoutsFacts Logging.

Section Appending.
Variable rowid_of_text : string → option Z.
Variable affinity : string → cell → cell.

Lemma insert_record_appends (cols : list string) (workouts after : list row)
    (record : list cell) :
  insert_record rowid_of_text affinity cols workouts record = inr after →
  ∃ r, after = workouts ++ [r].
Proof.
  unfold insert_record. destruct (rowid _ _ _) as [e|n]; [done|].
  cbn [bind]. destruct (decide _); [done|]. intros [= <-]. by eexists.
Qed.

Lemma insert_all_appends (cols : list string) (records : list (list cell))
    (workouts after : list row) :
  insert_all rowid_of_text affinity cols workouts records = inr after →
  ∃ appended, after = workouts ++ appended ∧
              length appended = length records.
Proof.
  revert workouts. induction records as [|record records IH];
    intros workouts Hok; simpl in Hok.
  - injection Hok as <-. exists []. by rewrite app_nil_r.
  - destruct (insert_record rowid_of_text affinity cols workouts record) as [e|mid] eqn:Hrec;
      [done|].
    cbn [bind] in Hok.
    apply insert_record_appends in Hrec as [r ->].
    apply IH in Hok as (appended & -> & Hlen).
    exists (r :: appended). split; [by rewrite <-app_assoc|].
    simpl. by rewrite Hlen.
Qed.


Lemma field_absent (cols : list string) (record : list cell) (c : string) :
  c ∉ cols → field cols record c = None.
Proof.
  intros Hc. unfold field. apply not_elem_of_list_to_map_1.
  intros Hin. apply list_elem_of_fmap in Hin as ([c' x] & -> & Hin).
  apply elem_of_zip_l in Hin. by apply Hc.
Qed.

Lemma largest_id_bounds (workouts : list row) (r : row) :
  r ∈ workouts → id r < next_rowid workouts.
Proof.
  unfold next_rowid.
  induction 1 as [r rest|r r' rest _ IH]; rewrite fmap_cons; simpl; lia.
Qed.

Lemma next_rowid_pos (workouts : list row) : 1 ≤ next_rowid workouts.
Proof.
  unfold next_rowid.
  induction workouts as [|r rest IH]; [done|]. rewrite fmap_cons. simpl. lia.
Qed.

Lemma next_rowid_snoc (workouts : list row) (r : row) :
  id r = next_rowid workouts → next_rowid (workouts ++ [r]) = id r + 1.
Proof.
  unfold next_rowid. intros Hr. rewrite fmap_app, foldr_app. simpl.
  assert (∀ (l : list Z) (m : Z), 0 ≤ m →
            foldr Z.max m l = Z.max m (foldr Z.max 0 l)) as Hmax.
  { intros l m Hm. induction l as [|x l IH]; simpl; [lia|]. rewrite IH. lia. }
  pose proof (next_rowid_pos workouts) as Hpos. unfold next_rowid in Hpos.
  rewrite Hmax by lia. lia.
Qed.

Lemma next_rowid_fresh (workouts : list row) :
  next_rowid workouts ∉ id <$> workouts.
Proof.
  intros Hin. apply list_elem_of_fmap in Hin as (r & Hid & Hr).
  apply largest_id_bounds in Hr. lia.
Qed.

Lemma valid_table_snoc (workouts : list row) (r : row) :
  valid_table workouts → id r = next_rowid workouts →
  next_rowid workouts < 2 ^ 63 → valid_table (workouts ++ [r]).
Proof.
  intros [Hnd Hfit] Hid Hroom. split.
  - rewrite fmap_app. apply NoDup_app. split; [done|]. split.
    + intros n Hn Hin. apply list_elem_of_singleton in Hin. subst n.
      rewrite Hid in Hn. by apply next_rowid_fresh in Hn.
    + apply NoDup_singleton.
  - apply Forall_app. split; [done|]. constructor; [|done].
    pose proof (next_rowid_pos workouts). unfold fits_int64.
    apply andb_true_iff. split; [apply Z.leb_le|apply Z.ltb_lt]; lia.
Qed.

(** Records that bring no id are numbered from the table's next rowid
    on, and all of them go in while rowids remain. *)
Lemma insert_all_autoincrement (cols : list string)
    (records : list (list cell)) (workouts : list row) :
  "id" ∉ cols → valid_table workouts →
  next_rowid workouts + Z.of_nat (length records) ≤ 2 ^ 63 →
  let appended :=
    zip_with (row_of_record affinity cols)
      (seqZ (next_rowid workouts) (Z.of_nat (length records))) records in
  insert_all rowid_of_text affinity cols workouts records = inr (workouts ++ appended) ∧
  valid_table (workouts ++ appended).
Proof.
  intros Hcols. revert workouts.
  induction records as [|record records IH]; intros workouts Hvalid Hroom.
  - simpl. by rewrite app_nil_r.
  - cbn [length] in *. cbv zeta.
    rewrite seqZ_cons by lia.
    replace (Z.pred (Z.of_nat (S (length records))))
      with (Z.of_nat (length records)) by lia.
    cbn [zip_with insert_all].
    set (r := row_of_record affinity cols (next_rowid workouts) record).
    assert (insert_record rowid_of_text affinity cols workouts record
              = inr (workouts ++ [r])) as ->.
    { unfold insert_record, rowid. rewrite field_absent by done.
      assert ((next_rowid workouts <? 2 ^ 63) = true) as ->
        by (apply Z.ltb_lt; lia).
      cbn [bind]. rewrite decide_False by apply next_rowid_fresh. done. }
    cbn [bind].
    assert (valid_table (workouts ++ [r])) as Hvalid'
      by (apply valid_table_snoc; [done|done|lia]).
    assert (next_rowid (workouts ++ [r]) = Z.succ (next_rowid workouts)) as Hnext
      by (rewrite next_rowid_snoc; [simpl; lia|done]).
    destruct (IH (workouts ++ [r]) Hvalid') as [Hins Hval]; [lia|].
    rewrite Hnext in Hins, Hval.
    rewrite <-app_assoc in Hins, Hval. done.
Qed.

(** X17. A frame without an [id] column, such as a CSV with the eight
    documented columns, never collides with what is stored: into a valid
    table with rowids to spare it is imported whole, its records
    numbered consecutively from the next rowid, and the table stays
    valid. *)
Theorem to_sql_append_without_id (df : frame) (workouts : list row) :
  "id" ∉ columns df → columns df ⊆ table_columns →
  valid_table workouts →
  next_rowid workouts + Z.of_nat (length (data df)) ≤ 2 ^ 63 →
  let appended :=
    zip_with (row_of_record affinity (columns df))
      (seqZ (next_rowid workouts) (Z.of_nat (length (data df)))) (data df) in
  to_sql_append rowid_of_text affinity no_faults df workouts = (inr (), workouts ++ appended) ∧
  valid_table (workouts ++ appended).
Proof.
  intros Hid Hcols Hvalid Hroom appended.
  destruct (insert_all_autoincrement (columns df) (data df) workouts)
    as [Hins Hval]; [done..|].
  split; [|done].
  destruct (decide (data df = [])) as [Hdata|Hdata].
  { unfold to_sql_append. subst appended. rewrite Hdata. simpl.
    by rewrite app_nil_r. }
  rewrite to_sql_append_no_faults by done.
  rewrite decide_True by done. by rewrite Hins.
Qed.

(** X18. "Add Entry": [write_workout] appends one row per dict, in order,
    numbered from the next rowid, each holding the values of its dict
    under the columns of their keys; the rows already logged are kept
    and the table stays valid. *)
Theorem write_workout_appends (rows : list entry_dict) (workouts : list row) :
  valid_table workouts →
  next_rowid workouts + Z.of_nat (length rows) ≤ 2 ^ 63 →
  let appended :=
    zip_with (logged_row affinity)
      (seqZ (next_rowid workouts) (Z.of_nat (length rows))) rows in
  write_workout rowid_of_text affinity no_faults rows workouts
    = (inr (), workouts ++ appended) ∧
  valid_table (workouts ++ appended).
Proof.
  intros Hvalid Hroom appended. unfold write_workout.
  assert (entry_columns ⊆ table_columns) as Hsub by (intros c Hc; by right).
  assert ("id" ∉ entry_columns) as Hid by (by apply (bool_decide_unpack _)).
  destruct (insert_all_autoincrement (columns (DataFrame rows))
              (data (DataFrame rows)) workouts) as [Hins Hval];
    [destruct rows; [apply not_elem_of_nil|exact Hid]|done
    |cbn [DataFrame data]; by rewrite length_fmap|].
  cbn [DataFrame data] in Hins, Hval. rewrite length_fmap in Hins, Hval.
  assert (zip_with (row_of_record affinity (columns (DataFrame rows)))
            (seqZ (next_rowid workouts) (Z.of_nat (length rows)))
            (entry_cells <$> rows) = appended) as Happ.
  { subst appended. rewrite zip_with_fmap_r.
    destruct rows as [|e0 rows']; [by rewrite !zip_with_nil_r|].
    apply zip_with_ext; [|done..]. intros n e. reflexivity. }
  rewrite Happ in Hins, Hval. split; [|done].
  destruct rows as [|e0 rows'].
  { subst appended. unfold to_sql_append. simpl.
    by rewrite ?zip_with_nil_r, app_nil_r. }
  rewrite to_sql_append_no_faults by done.
  cbn [DataFrame columns data]. rewrite decide_True by done.
  cbn [DataFrame columns data] in Hins. by rewrite Hins.
Qed.

End Appending.

Lemma to_sql_append_without_id_witness :
  to_sql_append (λ _, None) (λ _ c, c) no_faults
    {| columns := ["day_name"; "sets"]; data := [[Text "x"; Int 3]] |}
    [logged]
  = (inr (), [logged] ++
       zip_with (row_of_record (λ _ c, c) ["day_name"; "sets"])
         (seqZ (next_rowid [logged]) 1) [[Text "x"; Int 3]]).
Proof.
  refine (proj1 (to_sql_append_without_id (λ _, None) (λ _ c, c)
    {| columns := ["day_name"; "sets"]; data := [[Text "x"; Int 3]] |}
    [logged] _ _ logged_valid _)).
  - by apply (bool_decide_unpack _).
  - by apply (bool_decide_unpack _).
  - by vm_compute.
Defined.

Lemma write_workout_appends_witness :
  (write_workout (λ _, None) (λ _ c, c) no_faults [press] [logged]).1
    = inr ().
Proof.
  rewrite (proj1 (write_workout_appends (λ _, None) (λ _ c, c) [press]
                    [logged] logged_valid ltac:(by vm_compute))).
  reflexivity.
Defined.

End WorkoutsMore.

(** * The passcode gate *)
Module AuthFacts.
Import Auth.

Lemma script_locked (PASSCODE : string) (session : option bool) (a : action) :
  PASSCODE ≠ "" → default false session = false →
  (unlock a = true → code a ≠ PASSCODE) →
  script PASSCODE session a = (Some false, Stopped).
Proof.
  intros Hp Hs Ha. unfold script. rewrite decide_False by done.
  rewrite Hs. destruct (unlock a); [|done].
  by rewrite decide_False by (by apply Ha).
Qed.

(** X19. With a passcode set, a visitor who never submits the right code
    never gets past the gate: every interaction of the visit ends at
    [st.stop()], however many attempts are made. *)
Theorem gate_holds (PASSCODE : string) (session : option bool)
    (actions : list action) :
  PASSCODE ≠ "" → default false session = false →
  Forall (λ a, unlock a = true → code a ≠ PASSCODE) actions →
  Forall (λ g, g = Stopped) (visit PASSCODE session actions).
Proof.
  intros Hp Hs Hall. revert session Hs.
  induction Hall as [|a actions Ha _ IH]; intros session Hs; simpl.
  - constructor.
  - unfold interaction. rewrite script_locked by done.
    constructor; [done|]. by apply IH.
Qed.

Lemma gate_holds_witness :
  Forall (λ g, g = Stopped)
    (visit "s3cret" None
       [ {| code := "guess"; unlock := true |};
         {| code := "s3cret"; unlock := false |};
         {| code := ""; unlock := true |} ]).
Proof.
  apply gate_holds; [done|done|].
  repeat constructor; simpl; intros; done.
Defined.

(** X20. The right code opens the gate at once (the script reruns and renders)
    and for the rest of the session, whatever is typed later; and with no
    passcode set there is no gate at all. *)
Theorem gate_opens (PASSCODE : string) (session : option bool)
    (actions : list action) :
  (PASSCODE ≠ "" → default false session = false →
   interaction PASSCODE session {| code := PASSCODE; unlock := true |}
     = (Some true, Rendered)) ∧
  (PASSCODE ≠ "" →
   Forall (λ g, g = Rendered) (visit PASSCODE (Some true) actions)) ∧
  Forall (λ g, g = Rendered) (visit "" session actions).
Proof.
  split; [|split].
  - intros Hp Hs. unfold interaction.
    assert (script PASSCODE session {| code := PASSCODE; unlock := true |}
              = (Some true, Rerun)) as ->.
    { unfold script. rewrite decide_False by done. rewrite Hs. simpl.
      by rewrite decide_True. }
    unfold script. by rewrite decide_False.
  - intros Hp. induction actions as [|a actions IH]; simpl; [constructor|].
    unfold interaction, script. rewrite decide_False by done. simpl.
    by constructor.
  - revert session. induction actions as [|a actions IH]; intros session;
      simpl; [constructor|].
    constructor; [done|]. apply IH.
Qed.

Lemma gate_opens_witness :
  interaction "s3cret" None {| code := "s3cret"; unlock := true |}
    = (Some true, Rendered).
Proof.
  apply (proj1 (gate_opens "s3cret" None [])); done.
Defined.

End AuthFacts.
